(** * Hyperbolic-Illusion: the tiling geometry of [src/math.js] and the
      reduction loop of [public/shader.glsl]

    The JavaScript numbers of the program are IEEE doubles.  The main
    development reads them as real numbers ([R]): every arithmetic
    operation is the exact one, [Math.sqrt] is [sqrt], comparisons are the
    order of [R].  Statements proved here are therefore statements of exact
    arithmetic; each one carries the hypotheses that keep the program away
    from a division by zero or a square root of a negative number, where a
    double would be [NaN] or infinite and the reading as a real number says
    nothing.  Module [F64] at the end of the definitions repeats
    [circleFrom3Points] and [circleCircleIntersections] on binary64
    numbers, where those values, and the effect of rounding on a test
    against a threshold, can be computed. *)

From Stdlib Require Import Reals Lra Lia Psatz ZArith List Bool String.
From Stdlib Require Floats.
Import ListNotations.
Local Open Scope R_scope.

(* ================================================================== *)
(** * Definitions *)
(* ================================================================== *)

(** ** JavaScript numbers read as reals *)

(** [a < b] as the boolean JavaScript computes. *)
Definition Rltb (a b : R) : bool := if Rlt_dec a b then true else false.

(** [a > b]. *)
Definition Rgtb (a b : R) : bool := Rltb b a.

(** [a >= b]. *)
Definition Rgeb (a b : R) : bool := if Rle_dec b a then true else false.

(** [Math.abs]. *)
Definition Math_abs (a : R) : R := Rabs a.

(** [Math.sqrt], for a non-negative argument. *)
Definition Math_sqrt (a : R) : R := sqrt a.

(** [Math.pow(b, e)] for a base [b >= 0] (and [e >= 0] when [b = 0]),
    which is how [root] calls it. *)
Definition Math_pow (b e : R) : R :=
  if Req_dec_T b 0 then (if Req_dec_T e 0 then 1 else 0) else Rpower b e.

(** [Math.atan2(y, x)]: the angle of the point [(x, y)], in (-PI, PI]. *)
Definition Math_atan2 (yy xx : R) : R :=
  if Rlt_dec 0 xx then atan (yy / xx)
  else if Rlt_dec xx 0 then
         (if Rle_dec 0 yy then atan (yy / xx) + PI else atan (yy / xx) - PI)
  else if Rlt_dec 0 yy then PI / 2
  else if Rlt_dec yy 0 then - (PI / 2)
  else 0.

(** The threshold [1e-12] used by every geometric routine. *)
Definition EPS : R := / 10 ^ 12.

(** ** class Complex *)

Record Complex : Type := mkComplex { x : R; y : R }.

Definition add (this z : Complex) : Complex :=
  mkComplex (x this + x z) (y this + y z).

Definition sub (this z : Complex) : Complex :=
  mkComplex (x this - x z) (y this - y z).

Definition mul (this z : Complex) : Complex :=
  mkComplex (x this * x z - y this * y z) (x this * y z + y this * x z).

Definition mulRe (this : Complex) (k : R) : Complex :=
  mkComplex (x this * k) (y this * k).

Definition divRe (this : Complex) (k : R) : Complex := mulRe this (1 / k).

Definition conj (this : Complex) : Complex := mkComplex (x this) (- y this).

Definition normSq (this : Complex) : R :=
  x this * x this + y this * y this.

Definition getNorm (this : Complex) : R := Math_sqrt (normSq this).

Definition getNormalized (this : Complex) : Complex :=
  divRe this (getNorm this).

Definition reciprocal (this : Complex) : Complex :=
  divRe (conj this) (normSq this).

Definition div (this z : Complex) : Complex := mul this (reciprocal z).

(** Euler's formula [e^it = cos t + i sin t]. *)
Definition versor (t : R) : Complex := mkComplex (cos t) (sin t).

(** [root(n)]: the loop [for (k = 0; k < n; k++)] pushes one root per [k]. *)
Definition root (this : Complex) (n : nat) : list Complex :=
  let nthRootr := Math_pow (getNorm this) (1 / INR n) in
  let phi := Math_atan2 (y this) (x this) in
  map (fun k => mulRe (versor ((phi + 2 * INR k * PI) / INR n)) nthRootr)
      (seq 0 n).

Definition CMP_ONE : Complex := mkComplex 1 0.
Definition CMP_I : Complex := mkComplex 0 1.
Definition CMP_ZERO : Complex := mkComplex 0 0.

(** ** Circles and Moebius maps *)

Record Circle : Type := mkCircle { center : Complex; radius : R }.

(** The determinant [A*D - B*C] that [circleFrom3Points] divides by. *)
Definition det3 (p1 p2 p3 : Complex) : R :=
  (x p1 - x p2) * (y p1 - y p3) - (y p1 - y p2) * (x p1 - x p3).

Definition circleFrom3Points (p1 p2 p3 : Complex) : Circle :=
  let A := x p1 - x p2 in
  let B := y p1 - y p2 in
  let C := x p1 - x p3 in
  let D := y p1 - y p3 in
  let E := (x p1 * x p1 - x p2 * x p2 + y p1 * y p1 - y p2 * y p2) * (1 / 2) in
  let F := (x p1 * x p1 - x p3 * x p3 + y p1 * y p1 - y p3 * y p3) * (1 / 2) in
  let det := A * D - B * C in
  let center := mkComplex ((D * E - B * F) / det) ((- C * E + A * F) / det) in
  let radius := getNorm (sub center p1) in
  mkCircle center radius.

Module MMap.
(** The object [{a, b, c, d}] returned by [MobiusMap3PointsTo_m101]. *)
Record t : Type := mk { a : Complex; b : Complex; c : Complex; d : Complex }.
End MMap.

(** [denoms[0]]: the first element of the array of roots. *)
Definition first_root (denoms : list Complex) : Complex := hd CMP_ZERO denoms.

Definition MobiusMap3PointsTo_m101 (P Q R : Complex) : MMap.t :=
  let denoms := root (mulRe (mul (mul (sub P R) (sub Q P)) (sub Q R)) 2) 2 in
  let denom := first_root denoms in
  MMap.mk
    (div (sub P R) denom)
    (div (mul (mulRe Q (-1)) (sub P R)) denom)
    (div (add (sub Q P) (sub Q R)) denom)
    (div (sub (mul (mulRe P (-1)) (sub Q R)) (mul R (sub Q P))) denom).

Definition applyMobiusTrans (M : MMap.t) (z : Complex) (inverted : bool)
  : Complex :=
  if inverted then
    div (sub (mul (MMap.d M) z) (MMap.b M)) (sub (MMap.a M) (mul (MMap.c M) z))
  else
    div (add (mul (MMap.a M) z) (MMap.b M)) (add (MMap.d M) (mul (MMap.c M) z)).

(** ** Notions used to state the properties of the Moebius maps *)

(** [-z], written [z.mulRe(-1)] in the source. *)
Definition Copp (z : Complex) : Complex := mulRe z (-1).

(** The number whose square root [MobiusMap3PointsTo_m101] divides by. *)
Definition mobius_radicand (P Q R : Complex) : Complex :=
  mulRe (mul (mul (sub P R) (sub Q P)) (sub Q R)) 2.

(** The determinant [a*d - b*c] of a coefficient object. *)
Definition mobius_det (M : MMap.t) : Complex :=
  sub (mul (MMap.a M) (MMap.d M)) (mul (MMap.b M) (MMap.c M)).

(** ** Elementary constructions *)

(** Intersection points of two circles ([[]] if none).  The local variable
    [x] of the source (distance from [c1] to the chord midpoint) is [xm]. *)
Definition circleCircleIntersections (c1 : Complex) (r1 : R)
  (c2 : Complex) (r2 : R) : list Complex :=
  let dVec := sub c2 c1 in
  let d := getNorm dVec in
  if Rgtb d (r1 + r2) || Rltb d (Math_abs (r1 - r2)) || Rltb d EPS then []
  else
    let xm := (r1 * r1 - r2 * r2 + d * d) / (2 * d) in
    let h2 := r1 * r1 - xm * xm in
    let h2 := if Rltb h2 0 then 0 else h2 in
    let p := add c1 (mulRe dVec (xm / d)) in
    let perp := getNormalized (mkComplex (- y dVec) (x dVec)) in
    let h := Math_sqrt h2 in
    let i1 := add p (mulRe perp h) in
    let i2 := sub p (mulRe perp h) in
    if Rltb h EPS then [i1] else [i1; i2].

Definition isInsideTriangle (p a b c : Complex) : bool :=
  let denominator :=
    (y b - y c) * (x a - x c) + (x c - x b) * (y a - y c) in
  if Rltb (Math_abs denominator) EPS then false
  else
    let alpha :=
      ((y b - y c) * (x p - x c) + (x c - x b) * (y p - y c)) / denominator in
    let beta :=
      ((y c - y a) * (x p - x c) + (x a - x c) * (y p - y c)) / denominator in
    let gamma := 1 - alpha - beta in
    Rgeb alpha 0 && Rgeb beta 0 && Rgeb gamma 0.

(** [new Complex(z.x, -z.y)]: the reflection in the real axis written out
    at each use in the source. *)
Definition flipY (z : Complex) : Complex := mkComplex (x z) (- y z).

(** [new Complex(-z.x, z.y)]. *)
Definition flipX (z : Complex) : Complex := mkComplex (- x z) (y z).

Definition enlargedCircleAtPoint (P : Complex) (MMapA MMapB : MMap.t)
  : Circle :=
  let P_trans_A := applyMobiusTrans MMapA P false in
  let P_reflect_trans_A := flipY P_trans_A in
  let P_reflect_A := applyMobiusTrans MMapA P_reflect_trans_A true in
  let P_trans_B := applyMobiusTrans MMapB P false in
  let P_reflect_trans_B := flipY P_trans_B in
  let P_reflect_B := applyMobiusTrans MMapB P_reflect_trans_B true in
  circleFrom3Points P P_reflect_A P_reflect_B.

Definition ornament (D refDir : Complex) (len_rat angle_rat : R) : Complex :=
  let thetaD := Math_atan2 (y D) (x D) in
  let thetaV2 := Math_atan2 (y refDir) (x refDir) in
  let thetaE := thetaD + angle_rat * (thetaV2 - thetaD) in
  let rE := len_rat * getNorm D in
  mulRe (versor thetaE) rE.

(** The result is [None] where the source returns [null]. *)
Definition intersectCircleWithOriginLine (invCen : Complex) (invRad : R)
  (refDir : Complex) : option Complex :=
  let nx := y refDir in
  let ny := - x refDir in
  let cenX := x invCen in
  let cenY := y invCen in
  if Rgtb (Math_abs ny) EPS then
    let slope := (- nx) / ny in
    let A := 1 + slope * slope in
    let B := -2 * (cenX + slope * cenY) in
    let C := cenX * cenX + cenY * cenY - invRad * invRad in
    let disc := B * B - 4 * A * C in
    if Rltb disc 0 then None
    else
      let x1 := (- B + Math_sqrt disc) / (2 * A) in
      let y1 := slope * x1 in
      let x2 := (- B - Math_sqrt disc) / (2 * A) in
      let y2 := slope * x2 in
      let cand1 := mkComplex x1 y1 in
      let cand2 := mkComplex x2 y2 in
      Some (if Rltb (getNorm cand1) (getNorm cand2) then cand1 else cand2)
  else
    let radTerm := invRad * invRad - cenX * cenX in
    let radTerm := if Rltb radTerm 0 then 0 else radTerm in
    let yv := cenY + Math_sqrt radTerm in
    let cand1 := mkComplex 0 yv in
    let cand2 := mkComplex 0 (cenY - Math_sqrt radTerm) in
    Some (if Rltb (getNorm cand1) (getNorm cand2) then cand1 else cand2).

(** ** Notions used to state the properties of the constructions *)

(** [P] is on the circle of center [cen] and radius [rad]. *)
Definition onCircle (cen : Complex) (rad : R) (P : Complex) : Prop :=
  normSq (sub P cen) = rad * rad.

(** [P] is on the line [nx*x + ny*y = 0] with [(nx, ny) = (refDir.y,
    -refDir.x)]: the line through the origin in direction [refDir]. *)
Definition onOriginLine (refDir P : Complex) : Prop :=
  y refDir * x P + (- x refDir) * y P = 0.

(** The discriminant [disc] computed in the non-vertical branch of
    [intersectCircleWithOriginLine]. *)
Definition originLineDisc (invCen : Complex) (invRad : R) (refDir : Complex)
  : R :=
  let slope := (- y refDir) / (- x refDir) in
  let A := 1 + slope * slope in
  let B := -2 * (x invCen + slope * y invCen) in
  let C := x invCen * x invCen + y invCen * y invCen - invRad * invRad in
  B * B - 4 * A * C.

(** The radicand [radTerm] of the vertical branch, before it is clamped. *)
Definition verticalRadTerm (invCen : Complex) (invRad : R) : R :=
  invRad * invRad - x invCen * x invCen.

(** ** The reduction loop of [tilingSample] ([public/shader.glsl]) *)

Module Shader.

(** A GLSL [vec2]; its components are [.x] and [.y] as for [Complex]. *)
Definition vec2 : Type := Complex.

Definition vadd (u v : vec2) : vec2 := mkComplex (x u + x v) (y u + y v).
Definition vsub (u v : vec2) : vec2 := mkComplex (x u - x v) (y u - y v).
(** [k * v] for a scalar [k]. *)
Definition vscale (k : R) (v : vec2) : vec2 := mkComplex (k * x v) (k * y v).
(** [v / k] for a scalar [k]. *)
Definition vdiv (v : vec2) (k : R) : vec2 := mkComplex (x v / k) (y v / k).
Definition dot (u v : vec2) : R := x u * x v + y u * y v.
(** [float normSq(vec2 v) { return dot(v, v); }] *)
Definition normSq (v : vec2) : R := dot v v.

(** The variables the loop updates: the point [z] and the float counters
    [n], [a], [col0], [col1], [col2], [pol_col]. *)
Record ReduceState : Type := mkReduce {
  rs_z : vec2;
  rs_n : Z;
  rs_a : Z;
  rs_col0 : Z;
  rs_col1 : Z;
  rs_col2 : Z;
  rs_pol_col : Z
}.

Definition initialState (z : vec2) : ReduceState := mkReduce z 0 0 0 0 0 0.

Section Uniforms.

(** The uniforms of the shader read by the loop. *)
Variables (invCen refNrm : vec2) (invRad : R).

(** [#define invRadSq invRad * invRad] *)
Definition invRadSq : R := invRad * invRad.

(** One pass of the body of the [for] loop; the boolean is [fund] as the
    final [if (fund) break;] reads it. *)
Definition reducePass (st : ReduceState) : ReduceState * bool :=
  let z := rs_z st in
  let n := rs_n st in
  let a := rs_a st in
  let col0 := rs_col0 st in
  let col1 := rs_col1 st in
  let col2 := rs_col2 st in
  let pol_col := rs_pol_col st in
  let fund := true in
  (* Edge (polEdgeCenter-to-polVertex edge) *)
  let diff := vsub z invCen in
  let distSq := normSq diff in
  let inside := Rltb distSq invRadSq in
  let fund := if inside then false else fund in
  let z := if inside then vadd invCen (vdiv (vscale invRadSq diff) distSq)
           else z in
  let n := if inside then (n + 1)%Z else n in
  let a := if inside then (a + 1)%Z else a in
  let pol_col := if inside then (pol_col + 1)%Z else pol_col in
  let col0 := if inside then (col0 + 1)%Z else col0 in
  (* Sectional line (polVertex-to-polCenter edge) *)
  let dotProd := dot z refNrm in
  let wrongSide := Rltb dotProd 0 in
  let fund := if wrongSide then false else fund in
  let z := if wrongSide then vsub z (vscale (2 * dotProd) refNrm) else z in
  let n := if wrongSide then (n + 1)%Z else n in
  let col1 := if wrongSide then (col1 + 1)%Z else col1 in
  (* Edge bisector (polCenter-to-polEdgeCenter edge) *)
  let below := Rltb (y z) 0 in
  let fund := if below then false else fund in
  let z := if below then mkComplex (x z) (y z * -1) else z in
  let n := if below then (n + 1)%Z else n in
  let pol_col := if below then (pol_col + 1)%Z else pol_col in
  let col2 := if below then (col2 + 1)%Z else col2 in
  (mkReduce z n a col0 col1 col2 pol_col, fund).

(** [for (int i = 0; i < nIterations; i++) { ...; if (fund) break; }]
    with [k] iterations left.  The boolean tells whether the loop was
    left through [break]. *)
Fixpoint reduceLoop (k : nat) (st : ReduceState) : ReduceState * bool :=
  match k with
  | O => (st, false)
  | S k' =>
      let (st', fund) := reducePass st in
      if fund then (st', true) else reduceLoop k' st'
  end.

(** The loop started at the point [z] with all counters at zero. *)
Definition tilingReduce (nIterations : Z) (z : vec2) : ReduceState * bool :=
  reduceLoop (Z.to_nat nIterations) (initialState z).

(** The fundamental domain: outside the inversion circle, on the
    positive side of the reflection line, above the real axis. *)
Definition inFundamentalDomain (z : vec2) : Prop :=
  invRadSq <= normSq (vsub z invCen) /\ 0 <= dot z refNrm /\ 0 <= y z.

End Uniforms.

End Shader.

(** ** The circle constructions on binary64 numbers *)

(** The same source lines as above with the numbers read as IEEE 754
    binary64 values (what a JavaScript number is), so that a division by
    zero yields an infinity or [NaN], and every operation rounds, as when
    the program runs. *)
Module F64.
Import Floats.PrimFloat.
Local Open Scope float_scope.

Record Complex : Type := mkComplex { x : float; y : float }.

Definition add (this z : Complex) : Complex :=
  mkComplex (x this + x z) (y this + y z).

Definition sub (this z : Complex) : Complex :=
  mkComplex (x this - x z) (y this - y z).

Definition mulRe (this : Complex) (k : float) : Complex :=
  mkComplex (x this * k) (y this * k).

Definition divRe (this : Complex) (k : float) : Complex :=
  mulRe this (1 / k).

Definition normSq (this : Complex) : float :=
  x this * x this + y this * y this.

Definition getNorm (this : Complex) : float := sqrt (normSq this).

Definition getNormalized (this : Complex) : Complex :=
  divRe this (getNorm this).

Record Circle : Type := mkCircle { center : Complex; radius : float }.

(** The local variable [det] of [circleFrom3Points]. *)
Definition det3 (p1 p2 p3 : Complex) : float :=
  (x p1 - x p2) * (y p1 - y p3) - (y p1 - y p2) * (x p1 - x p3).

Definition circleFrom3Points (p1 p2 p3 : Complex) : Circle :=
  let A := x p1 - x p2 in
  let B := y p1 - y p2 in
  let C := x p1 - x p3 in
  let D := y p1 - y p3 in
  let E := (x p1 * x p1 - x p2 * x p2 + y p1 * y p1 - y p2 * y p2) * 0.5 in
  let F := (x p1 * x p1 - x p3 * x p3 + y p1 * y p1 - y p3 * y p3) * 0.5 in
  let det := A * D - B * C in
  let center := mkComplex ((D * E - B * F) / det) ((- C * E + A * F) / det) in
  let radius := getNorm (sub center p1) in
  mkCircle center radius.

(** [Number.isFinite] on the three numbers of a circle. *)
Definition finiteCircle (c : Circle) : bool :=
  is_finite (x (center c)) && is_finite (y (center c)) && is_finite (radius c).

(** The threshold [1e-12] as a double. *)
Definition EPS : float := 0x1.19799812dea11p-40.

(** [circleCircleIntersections] of [math.js]; a comparison [a > b] of the
    source is [b <? a]. *)
Definition circleCircleIntersections (c1 : Complex) (r1 : float)
  (c2 : Complex) (r2 : float) : list Complex :=
  let dVec := sub c2 c1 in
  let d := getNorm dVec in
  if (r1 + r2 <? d) || (d <? abs (r1 - r2)) || (d <? EPS) then []
  else
    let xm := (r1 * r1 - r2 * r2 + d * d) / (2 * d) in
    let h2 := r1 * r1 - xm * xm in
    let h2 := if h2 <? 0 then 0 else h2 in
    let p := add c1 (mulRe dVec (xm / d)) in
    let perp := getNormalized (mkComplex (- y dVec) (x dVec)) in
    let h := sqrt h2 in
    let i1 := add p (mulRe perp h) in
    let i2 := sub p (mulRe perp h) in
    if h <? EPS then [i1] else [i1; i2].

(** The real number a double stands for (0 for [NaN] and the
    infinities). *)
Definition toR (f : float) : R :=
  match Floats.FloatOps.Prim2SF f with
  | Floats.SpecFloat.S754_finite s m e =>
      ((if s then -1 else 1) * IZR (Z.pos m) * powerRZ 2 e)%R
  | _ => 0%R
  end.

(** A specification-level value that is [NaN] or an infinity. *)
Definition nonfiniteSF (s : Floats.SpecFloat.spec_float) : bool :=
  match s with
  | Floats.SpecFloat.S754_nan | Floats.SpecFloat.S754_infinity _ => true
  | _ => false
  end.

(** A specification-level value that is [NaN] or [+Infinity]. *)
Definition nanOrPlusInfSF (s : Floats.SpecFloat.spec_float) : bool :=
  match s with
  | Floats.SpecFloat.S754_nan | Floats.SpecFloat.S754_infinity false => true
  | _ => false
  end.

End F64.

(** The point of the plane a pair of doubles stands for. *)
Definition F64_toComplex (z : F64.Complex) : Complex :=
  mkComplex (F64.toR (F64.x z)) (F64.toR (F64.y z)).

(** The distance between the points two pairs of doubles stand for. *)
Definition F64_distance (a b : F64.Complex) : R :=
  getNorm (sub (F64_toComplex b) (F64_toComplex a)).

(** The determinant of [circleFrom3Points] for the points three pairs of
    doubles stand for, without rounding. *)
Definition F64_det3 (p1 p2 p3 : F64.Complex) : R :=
  det3 (F64_toComplex p1) (F64_toComplex p2) (F64_toComplex p3).

(** ** The tiling-parameter generator *)

(** How a call ends: it returns a value, or an exception propagates out of
    it; the exception is recorded by its [name] property. *)
Inductive outcome (A : Type) : Type :=
| Returned (a : A)
| Thrown (name : string).
Arguments Returned {A} a.
Arguments Thrown {A} name.

(** Reading a property of [undefined] or [null] throws a [TypeError]. *)
Definition deref {A B : Type} (v : option A) (k : A -> outcome B) : outcome B :=
  match v with
  | Some a => k a
  | None => Thrown "TypeError"
  end.

Notation "'let?' v ':=' e 'in' k" := (deref e (fun v => k))
  (at level 10, v name, e at level 100, k at level 200).

(** [thrownWith name o]: the call ended with an exception of that name. *)
Definition thrownWith {A : Type} (name : string) (o : outcome A) : bool :=
  match o with
  | Returned _ => false
  | Thrown n => String.eqb n name
  end.

(** [arr.sort((a, b) => b.y - a.y)]: by descending [y], stable. *)
Fixpoint insertByYDesc (a : Complex) (l : list Complex) : list Complex :=
  match l with
  | [] => [a]
  | b :: t => if Rltb (y a) (y b) then b :: insertByYDesc a t else a :: b :: t
  end.

Definition sortByYDesc (l : list Complex) : list Complex :=
  fold_right insertByYDesc [] l.

Module TD.
(** The object returned by [generateTilingParams]. *)
Record t : Type := mk {
  invCen : Complex;
  invRad : R;
  refNrm : Complex;
  V0 : Complex;
  V1 : Complex;
  V2 : Complex;
  D : Complex;
  E : Complex;
  D1 : Complex;
  E1 : Complex;
  D1p : Complex;
  E1p : Complex;
  D2 : Complex;
  E2 : Complex;
  triV0EnlargedCircleCenter : Complex;
  triV0EnlargedCircleRadius : R;
  triV1EnlargedCircleCenter : Complex;
  triV1EnlargedCircleRadius : R;
  triV2EnlargedCircleCenter : Complex;
  triV2EnlargedCircleRadius : R;
  V0EnlargedCircleCenter : Complex;
  V0EnlargedCircleRadius : R;
  V2EnlargedCircleCenter : Complex;
  V2EnlargedCircleRadius : R;
  newThickEdge12CircleCenter : Complex;
  newThickEdge12CircleRadius : R;
  newThickEdge01CircleCenter : Complex;
  newThickEdge01CircleRadius : R;
  newThickEdge20CircleCenter : Complex;
  newThickEdge20CircleRadius : R;
  C2RotSnakesCenter : Complex;
  C2RotSnakesRadius : R
}.
End TD.

(** The reflection used throughout the generator: transform forward,
    negate the imaginary part, transform back. *)
Definition reflectVia (M : MMap.t) (P : Complex) : Complex :=
  applyMobiusTrans M (flipY (applyMobiusTrans M P false)) true.

(** The locals of [generateTilingParams] up to the three vertices
    (source lines 130-156), as functions of [p] and [q]. *)
Definition gen_refDir (p : Z) : Complex := versor (PI / IZR p).

Definition gen_rSide (p q : Z) : R :=
  let refDir := gen_refDir p in
  let beta := PI / IZR q in
  let cotq := 1 / tan beta in
  let tanp := y refDir / x refDir in
  Math_sqrt ((cotq - tanp) / (cotq + tanp)).

Definition gen_cenX (p q : Z) : R :=
  let refDir := gen_refDir p in
  let rSide := gen_rSide p q in
  (1 / 2) * (rSide * rSide + 1) / (rSide * x refDir).

Definition gen_invCen (p q : Z) : Complex := mkComplex (gen_cenX p q) 0.

Definition gen_invRad (p q : Z) : R :=
  let refDir := gen_refDir p in
  let rSide := gen_rSide p q in
  let cenX := gen_cenX p q in
  let invRadSq := cenX * cenX + (-2 * x refDir * cenX + rSide) * rSide in
  Math_sqrt invRadSq.

Definition gen_V0 : Complex := mkComplex 0 0.

Definition gen_V1 (p q : Z) : Complex :=
  let invCen := gen_invCen p q in
  let invRad := gen_invRad p q in
  let V0 := gen_V0 in
  let dir := getNormalized (sub invCen V0) in
  let d_edge := getNorm (sub invCen V0) - invRad in
  mulRe dir d_edge.

Definition gen_V2 (p q : Z) : option Complex :=
  intersectCircleWithOriginLine (gen_invCen p q) (gen_invRad p q) (gen_refDir p).

(** [generateTilingParams(p, q, edgeThickness)].  The decimal constants
    [.5] and [0.6] are the rationals [1/2] and [6/10]. *)
Definition generateTilingParams (p q : Z) (edgeThickness : R)
  : outcome TD.t :=
  let refDir := gen_refDir p in
  let invCen := gen_invCen p q in
  let invRad := gen_invRad p q in
  (* --- Fundamental triangle vertices --- *)
  let V0 := gen_V0 in
  let V1 := gen_V1 p q in
  let V2 := gen_V2 p q in
  (* Universal thickening point *)
  let M_thickPoint := mkComplex 0 edgeThickness in
  (* the edge V0V1 thickening circle *)
  let P1 := mkComplex (-1) 0 in
  let P2 := mkComplex 1 0 in
  let MMap01 := MobiusMap3PointsTo_m101 P1 V0 P2 in
  let newM01 := applyMobiusTrans MMap01 M_thickPoint true in
  let newThickEdge01Circle := circleFrom3Points P1 P2 newM01 in
  (* the edge V1V2 thickening circle *)
  let intersections :=
    sortByYDesc (circleCircleIntersections invCen invRad V0 1) in
  let? upper := nth_error intersections 0 in
  let? lower := nth_error intersections 1 in
  let P1 := upper in
  let P2 := lower in
  let MMap12 := MobiusMap3PointsTo_m101 P2 V1 P1 in
  let newM12 := applyMobiusTrans MMap12 M_thickPoint true in
  let newThickEdge12Circle := circleFrom3Points P1 P2 newM12 in
  (* the edge V2V0 thickening circle *)
  let? V2 := V2 in
  let P1 := divRe V2 (getNorm V2) in
  let P2 := divRe V2 (- getNorm V2) in
  let MMap20 := MobiusMap3PointsTo_m101 P1 V0 P2 in
  let newM20 := applyMobiusTrans MMap20 M_thickPoint true in
  let newThickEdge20Circle := circleFrom3Points P1 P2 newM20 in
  (* the enlarged circle at triV0 *)
  let? thickEdgeIntersection_20_01 :=
    hd_error (filter (fun pt => isInsideTriangle pt V0 V1 V2)
      (circleCircleIntersections
         (center newThickEdge20Circle) (radius newThickEdge20Circle)
         (center newThickEdge01Circle) (radius newThickEdge01Circle))) in
  let triV0EnlargedCircle :=
    enlargedCircleAtPoint thickEdgeIntersection_20_01 MMap20 MMap01 in
  (* the enlarged circle at triV1 *)
  let? thickEdgeIntersection_01_12 :=
    hd_error (filter (fun pt => isInsideTriangle pt V0 V1 V2)
      (circleCircleIntersections
         (center newThickEdge01Circle) (radius newThickEdge01Circle)
         (center newThickEdge12Circle) (radius newThickEdge12Circle))) in
  let triV1EnlargedCircle :=
    enlargedCircleAtPoint thickEdgeIntersection_01_12 MMap01 MMap12 in
  (* the enlarged circle at triV2 *)
  let? thickEdgeIntersection_12_20 :=
    hd_error (filter (fun pt => isInsideTriangle pt V0 V1 V2)
      (circleCircleIntersections
         (center newThickEdge12Circle) (radius newThickEdge12Circle)
         (center newThickEdge20Circle) (radius newThickEdge20Circle))) in
  let triV2EnlargedCircle :=
    enlargedCircleAtPoint thickEdgeIntersection_12_20 MMap12 MMap20 in
  (* the enlarged circle at V2 *)
  let? V2a :=
    intersectCircleWithOriginLine
      (center newThickEdge12Circle) (radius newThickEdge12Circle) refDir in
  let V2b := reflectVia MMap12 V2a in
  let V2c := reflectVia MMap20 V2b in
  let V2EnlargedCircle := circleFrom3Points V2a V2b V2c in
  (* the enlarged circle at V0 *)
  let? V0a :=
    intersectCircleWithOriginLine
      (center newThickEdge01Circle) (radius newThickEdge01Circle) refDir in
  let V0b := flipY V0a in
  let V0c := reflectVia MMap20 V0b in
  let V0EnlargedCircle := circleFrom3Points V0a V0b V0c in
  (* ornaments *)
  let len_rat := 6 / 10 in
  let angle_rat := 6 / 10 in
  let D := mkComplex (edgeThickness * 4) 0 in
  let E := ornament D V2 len_rat angle_rat in
  let MMap2 := MobiusMap3PointsTo_m101 lower V2 upper in
  let tmp_E2 :=
    ornament (flipX D) (applyMobiusTrans MMap2 V0 false) len_rat angle_rat in
  let D2 := applyMobiusTrans MMap2 (flipX D) true in
  let E2 := applyMobiusTrans MMap2 tmp_E2 true in
  let D1 := applyMobiusTrans MMap12 D true in
  let E1 := applyMobiusTrans MMap12 E true in
  let MMap1 := MobiusMap3PointsTo_m101 (mkComplex (-1) 0) V1 (mkComplex 1 0) in
  let D1p := applyMobiusTrans MMap1 (flipX D) true in
  let E1p := applyMobiusTrans MMap1 (flipX E) true in
  (* the circle "centered" at V2 through V1 *)
  let V1_ref_20 := reflectVia MMap20 V1 in
  let V1_ref_20_ref_12 := reflectVia MMap12 V1_ref_20 in
  let C2RotSnakes := circleFrom3Points V1 V1_ref_20 V1_ref_20_ref_12 in
  Returned (TD.mk
    invCen invRad (mkComplex (y refDir) (- x refDir))
    V0 V1 V2 D E D1 E1 D1p E1p D2 E2
    (center triV0EnlargedCircle) (radius triV0EnlargedCircle)
    (center triV1EnlargedCircle) (radius triV1EnlargedCircle)
    (center triV2EnlargedCircle) (radius triV2EnlargedCircle)
    (center V0EnlargedCircle) (radius V0EnlargedCircle)
    (center V2EnlargedCircle) (radius V2EnlargedCircle)
    (center newThickEdge12Circle) (radius newThickEdge12Circle)
    (center newThickEdge01Circle) (radius newThickEdge01Circle)
    (center newThickEdge20Circle) (radius newThickEdge20Circle)
    (center C2RotSnakes) (radius C2RotSnakes)).

(** ** The caller [setValues] of the settings menu *)

(** The shared parameter object [params[0]]: the descriptor fields, the
    Schlafli symbol and edge thickness, and the remaining settings (colors,
    toggles), which [setValues] copies unchanged. *)
Record Params (S : Type) : Type := mkParams {
  tiling : TD.t;
  pValue : Z;
  qValue : Z;
  eThickness : R;
  settings : S
}.
Arguments mkParams {S}.
Arguments tiling {S}.
Arguments pValue {S}.
Arguments qValue {S}.
Arguments eThickness {S}.
Arguments settings {S}.

(** The state [setValues] acts on: the [hasError] flag and the parameters. *)
Record MenuState (S : Type) : Type := mkMenuState {
  hasError : bool;
  params : Params S
}.
Arguments mkMenuState {S}.
Arguments hasError {S}.
Arguments params {S}.

(** [setValues(p, q, edgeThickness)] over a generator [gen]; the second
    component is the name of the exception that propagates out of the call,
    if any. *)
Definition setValuesWith {S : Type} (gen : Z -> Z -> R -> outcome TD.t)
  (p q : Z) (edgeThickness : R) (st : MenuState S)
  : MenuState S * option string :=
  (* Check for valid tiling *)
  if ((p - 2) * (q - 2) <=? 4)%Z then
    (mkMenuState true (params st), None)
  else
    (* If valid, compute parameters and store Schlafli symbol *)
    match gen p q edgeThickness with
    | Returned d =>
        (mkMenuState false
           (mkParams d p q edgeThickness (settings (params st))), None)
    | Thrown name => (mkMenuState false (params st), Some name)
    end.

Definition setValues {S : Type} : Z -> Z -> R -> MenuState S
  -> MenuState S * option string :=
  setValuesWith generateTilingParams.

(** A descriptor with every field zero, used as the stored parameters of
    example states. *)
Definition zeroDescriptor : TD.t :=
  TD.mk CMP_ZERO 0 CMP_ZERO CMP_ZERO CMP_ZERO CMP_ZERO CMP_ZERO CMP_ZERO
        CMP_ZERO CMP_ZERO CMP_ZERO CMP_ZERO CMP_ZERO CMP_ZERO
        CMP_ZERO 0 CMP_ZERO 0 CMP_ZERO 0 CMP_ZERO 0 CMP_ZERO 0
        CMP_ZERO 0 CMP_ZERO 0 CMP_ZERO 0 CMP_ZERO 0.

(** ** The remaining methods of [class Complex] *)

(** [Math.exp] and [Math.tanh]. *)
Definition Math_exp (a : R) : R := Rtrigo_def.exp a.
Definition Math_tanh (a : R) : R := Rtrigo_def.tanh a.

Module Complex.

(** Complex exponential of the current complex number. *)
Definition exp (this : Complex) : Complex :=
  mulRe (versor (y this)) (Math_exp (x this)).

(** Complex hyperbolic tangent of the current complex number. *)
Definition tanh (this : Complex) : Complex :=
  let exp := exp (mulRe this 2) in
  div (sub exp CMP_ONE) (add exp CMP_ONE).

(** [power(n)], for [this] different from zero or [n > 0]. *)
Definition power (this : Complex) (n : R) : Complex :=
  let r := getNorm this in
  let phi := Math_atan2 (y this) (x this) in
  mulRe (versor (n * phi)) (Math_pow r n).

End Complex.

(** ** Mappings from the models of the hyperbolic plane to the disk *)

Definition gansScale : R := 10.
Definition mapScale : R := 3.

(** The upper half-plane entry runs [z.y ++] on its argument before it
    computes; the point it then uses is [(z.x, z.y + 1)]. *)
Definition modelMaps : list (Complex -> Complex) :=
  [ (fun z => z);
    (fun z => let z := mkComplex (x z) (y z + 1) in
              div (sub z CMP_I) (add z CMP_I));
    (fun z => divRe z (1 + Math_sqrt (1 - normSq z)));
    (fun z => reciprocal (mulRe z mapScale));
    (fun z => let z := mulRe z gansScale in
              divRe z (1 + Math_sqrt (1 + normSq z)));
    (fun z => let z := mulRe z mapScale in
              let mag := Math_tanh (getNorm z * (1 / 2)) in
              mulRe (getNormalized z) mag);
    (fun z => let z := mulRe z mapScale in
              divRe z (Math_sqrt (1 + normSq z)));
    (fun z => Complex.tanh z) ].

(** ** The complex utilities and projections of [public/shader.glsl] *)

Module ShaderMaps.

Import Shader.

(** Complex reciprocal: [vec2(z.x, -z.y) / normSq(z)]. *)
Definition cinv (z : vec2) : vec2 := vdiv (mkComplex (x z) (- y z)) (normSq z).

Definition cmul (a b : vec2) : vec2 :=
  mkComplex (x a * x b - y a * y b) (x a * y b + y a * x b).

Definition cdiv (a b : vec2) : vec2 := cmul a (cinv b).

(** [vec2(cos(z.y), sin(z.y)) * exp(z.x)] *)
Definition cexp (z : vec2) : vec2 :=
  vscale (Math_exp (x z)) (mkComplex (cos (y z)) (sin (y z))).

Definition ctanh (z : vec2) : vec2 :=
  let z := cexp (vscale 2 z) in
  cdiv (vsub z CMP_ONE) (vadd z CMP_ONE).

(** The GLSL built-ins [length] and [normalize]. *)
Definition length (v : vec2) : R := Math_sqrt (dot v v).
Definition normalize (v : vec2) : vec2 := vdiv v (length v).

Definition MAP_SCALE : R := 3.
Definition GANS_SCALE : R := 10.

(** [remapToDisk] for the value [modelIdx] of the uniform. *)
Definition remapToDisk (modelIdx : Z) (z : vec2) : vec2 :=
  match modelIdx with
  | 0%Z => z
  | 1%Z =>
      let z := mkComplex (x z) (y z + 1) in
      cdiv (vsub z CMP_I) (vadd z CMP_I)
  | 2%Z => vdiv z (1 + Math_sqrt (1 - normSq z))
  | 3%Z => cinv (vscale MAP_SCALE z)
  | 4%Z =>
      let z := vscale GANS_SCALE z in
      vdiv z (1 + Math_sqrt (1 + normSq z))
  | 5%Z =>
      let z := vscale MAP_SCALE z in
      let len := Math_tanh ((1 / 2) * length z) in
      vscale len (normalize z)
  | 6%Z =>
      let z := vscale MAP_SCALE z in
      vdiv z (Math_sqrt (1 + normSq z))
  | 7%Z => ctanh z
  | _ => z
  end.

(** Transform point in unit disk: [a * vec2(1., -1.)] is the conjugate. *)
Definition shift (z a : vec2) : vec2 :=
  cdiv (vsub z a)
       (vsub (mkComplex 1 0) (cmul z (mkComplex (x a * 1) (y a * -1)))).

Definition isInsideTriangle (p a b c : vec2) : bool :=
  let denominator :=
    (y b - y c) * (x a - x c) + (x c - x b) * (y a - y c) in
  if Rltb (Math_abs denominator) EPS then false
  else
    let alpha :=
      ((y b - y c) * (x p - x c) + (x c - x b) * (y p - y c)) / denominator in
    let beta :=
      ((y c - y a) * (x p - x c) + (x a - x c) * (y p - y c)) / denominator in
    let gamma := 1 - alpha - beta in
    Rgeb alpha 0 && Rgeb beta 0 && Rgeb gamma 0.

End ShaderMaps.

(* ================================================================== *)
(** * Properties *)
(* ================================================================== *)

Lemma Complex_eq (z w : Complex) : x z = x w -> y z = y w -> z = w.
Proof. destruct z, w; simpl; intros -> ->; reflexivity. Qed.

Lemma Complex_neq_normSq (z : Complex) : z <> CMP_ZERO <-> normSq z <> 0.
Proof.
  destruct z as [u v]; unfold normSq, CMP_ZERO; simpl; split.
  - intros H E. apply H. assert (u = 0) by nra. assert (v = 0) by nra.
    subst; reflexivity.
  - intros H E. injection E as -> ->. apply H. ring.
Qed.

Lemma Complex_field_theory :
  field_theory CMP_ZERO CMP_ONE add mul sub Copp div reciprocal (@eq Complex).
Proof.
  constructor.
  - constructor; intros; apply Complex_eq; simpl; ring.
  - intros E. injection E as E. lra.
  - reflexivity.
  - intros p Hp. apply Complex_neq_normSq in Hp. unfold normSq in Hp.
    apply Complex_eq; simpl; unfold normSq; field; exact Hp.
Qed.

Add Field ComplexField : Complex_field_theory.

(** ** Complex arithmetic *)

Lemma mulRe_mul (z : Complex) (k : R) : mulRe z k = mul z (mkComplex k 0).
Proof. apply Complex_eq; simpl; ring. Qed.

Lemma two_as_sum : mkComplex 2 0 = add CMP_ONE CMP_ONE.
Proof. apply Complex_eq; simpl; ring. Qed.

Lemma minus_one_as_opp : mkComplex (-1) 0 = Copp CMP_ONE.
Proof. apply Complex_eq; simpl; ring. Qed.

Lemma sub_neq_zero (z w : Complex) : z <> w -> sub z w <> CMP_ZERO.
Proof.
  intros H E. apply H. injection E as E1 E2.
  apply Complex_eq; lra.
Qed.

Lemma mul_neq_zero (z w : Complex) :
  z <> CMP_ZERO -> w <> CMP_ZERO -> mul z w <> CMP_ZERO.
Proof.
  rewrite !Complex_neq_normSq. unfold normSq; simpl. intros Hz Hw.
  replace ((x z * x w - y z * y w) * (x z * x w - y z * y w) +
           (x z * y w + y z * x w) * (x z * y w + y z * x w))
    with ((x z * x z + y z * y z) * (x w * x w + y w * y w)) by ring.
  apply Rmult_integral_contrapositive; split; assumption.
Qed.

Lemma two_neq_zero : add CMP_ONE CMP_ONE <> CMP_ZERO.
Proof. intros E. injection E as E _. lra. Qed.

Lemma one_neq_zero : CMP_ONE <> CMP_ZERO.
Proof. intros E. injection E as E. lra. Qed.

(** Side conditions left by [field] on complex numbers. *)
Ltac cx_nonzero :=
  repeat match goal with |- _ /\ _ => split end;
  first [ assumption | exact one_neq_zero | exact two_neq_zero ].

Lemma normSq_nonneg (z : Complex) : 0 <= normSq z.
Proof. unfold normSq. nra. Qed.

Lemma getNorm_nonneg (z : Complex) : 0 <= getNorm z.
Proof. apply sqrt_pos. Qed.

Lemma getNorm_sq (z : Complex) : getNorm z * getNorm z = normSq z.
Proof. apply sqrt_sqrt, normSq_nonneg. Qed.

Lemma getNorm_pos (z : Complex) : z <> CMP_ZERO -> 0 < getNorm z.
Proof.
  intros H. apply Complex_neq_normSq in H.
  apply sqrt_lt_R0. pose proof (normSq_nonneg z). lra.
Qed.

(** ** [Math.atan2], [Math.pow] and the square root taken by [root(2)] *)

Lemma sqrt_unique (a r : R) : 0 <= r -> r * r = a -> sqrt a = r.
Proof.
  intros Hr E. apply sqrt_lem_1; [rewrite <- E; nra | exact Hr | exact E].
Qed.

Lemma atan_hypotenuse (u v : R) :
  u <> 0 -> sqrt (1 + (v / u)²) * Rabs u = sqrt (u * u + v * v).
Proof.
  intros Hu. symmetry. apply sqrt_unique.
  - apply Rmult_le_pos; [apply sqrt_pos | apply Rabs_pos].
  - assert (Hs : 0 <= 1 + (v / u)²) by (unfold Rsqr; nra).
    assert (Ha : Rabs u * Rabs u = u * u).
    { unfold Rabs; destruct (Rcase_abs u); ring. }
    transitivity ((sqrt (1 + (v / u)²) * sqrt (1 + (v / u)²)) * (Rabs u * Rabs u));
      [ring|].
    rewrite sqrt_sqrt by exact Hs. rewrite Ha. unfold Rsqr. field. exact Hu.
Qed.

Lemma atan_hypotenuse_pos (t : R) : 0 < sqrt (1 + t²).
Proof. apply sqrt_lt_R0. unfold Rsqr. nra. Qed.

Lemma Math_atan2_polar (u v : R) :
  u * u + v * v <> 0 ->
  cos (Math_atan2 v u) * sqrt (u * u + v * v) = u /\
  sin (Math_atan2 v u) * sqrt (u * u + v * v) = v.
Proof.
  intros Hn. unfold Math_atan2.
  destruct (Rlt_dec 0 u) as [Hpos|Hnpos].
  - assert (Hu : u <> 0) by lra.
    rewrite <- (atan_hypotenuse u v Hu), Rabs_pos_eq by lra.
    rewrite cos_atan, sin_atan.
    pose proof (atan_hypotenuse_pos (v / u)).
    split; field; repeat split; lra.
  - destruct (Rlt_dec u 0) as [Hneg|Hnneg].
    + assert (Hu : u <> 0) by lra.
      rewrite <- (atan_hypotenuse u v Hu), Rabs_left by lra.
      pose proof (atan_hypotenuse_pos (v / u)).
      destruct (Rle_dec 0 v).
      * rewrite neg_cos, neg_sin, cos_atan, sin_atan.
        split; field; repeat split; lra.
      * unfold Rminus. rewrite cos_plus, sin_plus, cos_neg, sin_neg.
        rewrite cos_PI, sin_PI, cos_atan, sin_atan.
        split; field; repeat split; lra.
    + assert (u = 0) by lra. subst u.
      replace (0 * 0 + v * v) with (v * v) in * by ring.
      destruct (Rlt_dec 0 v).
      * rewrite cos_PI2, sin_PI2, sqrt_square by lra. split; ring.
      * destruct (Rlt_dec v 0).
        -- rewrite cos_neg, sin_neg, cos_PI2, sin_PI2.
           replace (v * v) with ((- v) * (- v)) by ring.
           rewrite sqrt_square by lra. split; ring.
        -- exfalso. apply Hn. assert (v = 0) by lra. subst; ring.
Qed.

Lemma Math_pow_half (r : R) : 0 <= r -> Math_pow r (1 / 2) = sqrt r.
Proof.
  intros Hr. unfold Math_pow.
  destruct (Req_dec_T r 0) as [->|Hne].
  - destruct (Req_dec_T (1 / 2) 0); [lra | symmetry; apply sqrt_0].
  - replace (1 / 2) with (/ 2) by lra. apply Rpower_sqrt. lra.
Qed.

Lemma root_length (z : Complex) (n : nat) : List.length (root z n) = n.
Proof. unfold root. rewrite length_map, length_seq. reflexivity. Qed.

(** The first of the two roots returned by [root(2)] squares to the number
    it was taken of. *)
Lemma first_root_square (w : Complex) :
  w <> CMP_ZERO ->
  mul (first_root (root w 2)) (first_root (root w 2)) = w.
Proof.
  intros Hw. pose proof (getNorm_pos w Hw) as Hr.
  pose proof (proj1 (Complex_neq_normSq w) Hw) as Hn. unfold normSq in Hn.
  destruct (Math_atan2_polar (x w) (y w) Hn) as [Hc Hs].
  unfold root, first_root. cbn [seq map hd INR].
  rewrite Math_pow_half by lra.
  set (phi := Math_atan2 (y w) (x w)) in *.
  replace ((phi + 2 * 0 * PI) / (1 + 1)) with (phi / 2) by field.
  assert (Hcos : cos phi = cos (phi / 2) * cos (phi / 2) - sin (phi / 2) * sin (phi / 2)).
  { rewrite <- cos_2a. f_equal. field. }
  assert (Hsin : sin phi = 2 * sin (phi / 2) * cos (phi / 2)).
  { rewrite <- sin_2a. f_equal. field. }
  assert (Hq : sqrt (getNorm w) * sqrt (getNorm w) = sqrt (x w * x w + y w * y w)).
  { rewrite sqrt_sqrt by lra. reflexivity. }
  rewrite Hcos in Hc. rewrite Hsin in Hs. rewrite <- Hq in Hc, Hs.
  apply Complex_eq; simpl; [rewrite <- Hc at 1 | rewrite <- Hs at 1]; ring.
Qed.

Lemma first_root_neq_zero (w : Complex) :
  w <> CMP_ZERO -> first_root (root w 2) <> CMP_ZERO.
Proof.
  intros Hw E. apply Hw. rewrite <- (first_root_square w Hw), E.
  apply Complex_eq; simpl; ring.
Qed.

(** ** The Moebius map through three points *)

Lemma mobius_radicand_neq_zero (P Q R : Complex) :
  P <> Q -> Q <> R -> P <> R -> mobius_radicand P Q R <> CMP_ZERO.
Proof.
  intros HPQ HQR HPR. unfold mobius_radicand.
  rewrite mulRe_mul, two_as_sum.
  repeat apply mul_neq_zero; try apply sub_neq_zero; auto using two_neq_zero.
Qed.

Lemma mobius_determinant (P Q R : Complex) :
  P <> Q -> Q <> R -> P <> R ->
  let M := MobiusMap3PointsTo_m101 P Q R in
  sub (mul (MMap.a M) (MMap.d M)) (mul (MMap.b M) (MMap.c M)) = CMP_ONE.
Proof.
  intros HPQ HQR HPR.
  pose proof (mobius_radicand_neq_zero P Q R HPQ HQR HPR) as Hw.
  pose proof (first_root_square _ Hw) as Hsq.
  pose proof (first_root_neq_zero _ Hw) as Hd.
  unfold MobiusMap3PointsTo_m101; cbn [MMap.a MMap.b MMap.c MMap.d].
  fold (mobius_radicand P Q R).
  set (denom := first_root (root (mobius_radicand P Q R) 2)) in *.
  rewrite !mulRe_mul, minus_one_as_opp.
  transitivity (div (mobius_radicand P Q R) (mul denom denom)).
  - unfold mobius_radicand. rewrite mulRe_mul, two_as_sum. field. exact Hd.
  - rewrite Hsq. field. exact Hw.
Qed.

Lemma inverted_after_forward (M : MMap.t) (z : Complex) :
  mobius_det M = CMP_ONE ->
  add (MMap.d M) (mul (MMap.c M) z) <> CMP_ZERO ->
  applyMobiusTrans M (applyMobiusTrans M z false) true = z.
Proof.
  destruct M as [ma mb mc md]; unfold mobius_det, applyMobiusTrans;
    cbn [MMap.a MMap.b MMap.c MMap.d].
  intros Hdet Hden.
  set (w := div (add (mul ma z) mb) (add md (mul mc z))).
  assert (Hnum : sub (mul md w) mb
                 = div (mul z (sub (mul ma md) (mul mb mc))) (add md (mul mc z)))
    by (unfold w; field; exact Hden).
  assert (Hdn : sub ma (mul mc w)
                = div (sub (mul ma md) (mul mb mc)) (add md (mul mc z)))
    by (unfold w; field; exact Hden).
  rewrite Hnum, Hdn, Hdet. field. cx_nonzero.
Qed.

Lemma forward_after_inverted (M : MMap.t) (z : Complex) :
  mobius_det M = CMP_ONE ->
  sub (MMap.a M) (mul (MMap.c M) z) <> CMP_ZERO ->
  applyMobiusTrans M (applyMobiusTrans M z true) false = z.
Proof.
  destruct M as [ma mb mc md]; unfold mobius_det, applyMobiusTrans;
    cbn [MMap.a MMap.b MMap.c MMap.d].
  intros Hdet Hden.
  set (w := div (sub (mul md z) mb) (sub ma (mul mc z))).
  assert (Hnum : add (mul ma w) mb
                 = div (mul z (sub (mul ma md) (mul mb mc))) (sub ma (mul mc z)))
    by (unfold w; field; exact Hden).
  assert (Hdn : add md (mul mc w)
                = div (sub (mul ma md) (mul mb mc)) (sub ma (mul mc z)))
    by (unfold w; field; exact Hden).
  rewrite Hnum, Hdn, Hdet. field. cx_nonzero.
Qed.

(** The second evaluation of a round trip is defined as soon as the first
    one is: its denominator is the reciprocal of the first denominator. *)
Lemma inverted_defined_after_forward (M : MMap.t) (z : Complex) :
  mobius_det M = CMP_ONE ->
  add (MMap.d M) (mul (MMap.c M) z) <> CMP_ZERO ->
  sub (MMap.a M) (mul (MMap.c M) (applyMobiusTrans M z false)) <> CMP_ZERO.
Proof.
  destruct M as [ma mb mc md]; unfold mobius_det, applyMobiusTrans;
    cbn [MMap.a MMap.b MMap.c MMap.d].
  intros Hdet Hden.
  assert (Hdn : sub ma (mul mc (div (add (mul ma z) mb) (add md (mul mc z))))
                = div (sub (mul ma md) (mul mb mc)) (add md (mul mc z)))
    by (field; exact Hden).
  rewrite Hdn, Hdet. intros E.
  assert (H1 : mul (div CMP_ONE (add md (mul mc z))) (add md (mul mc z)) = CMP_ONE)
    by (field; exact Hden).
  rewrite E in H1. injection H1 as H1 _. lra.
Qed.

Lemma forward_defined_after_inverted (M : MMap.t) (z : Complex) :
  mobius_det M = CMP_ONE ->
  sub (MMap.a M) (mul (MMap.c M) z) <> CMP_ZERO ->
  add (MMap.d M) (mul (MMap.c M) (applyMobiusTrans M z true)) <> CMP_ZERO.
Proof.
  destruct M as [ma mb mc md]; unfold mobius_det, applyMobiusTrans;
    cbn [MMap.a MMap.b MMap.c MMap.d].
  intros Hdet Hden.
  assert (Hdn : add md (mul mc (div (sub (mul md z) mb) (sub ma (mul mc z))))
                = div (sub (mul ma md) (mul mb mc)) (sub ma (mul mc z)))
    by (field; exact Hden).
  rewrite Hdn, Hdet. intros E.
  assert (H1 : mul (div CMP_ONE (sub ma (mul mc z))) (sub ma (mul mc z)) = CMP_ONE)
    by (field; exact Hden).
  rewrite E in H1. injection H1 as H1 _. lra.
Qed.

(** Dividing the four coefficients by a common non-zero number does not
    change the forward map. *)
Lemma forward_common_denominator (A B C D k z : Complex) :
  k <> CMP_ZERO ->
  add D (mul C z) <> CMP_ZERO ->
  applyMobiusTrans (MMap.mk (div A k) (div B k) (div C k) (div D k)) z false
  = div (add (mul A z) B) (add D (mul C z)).
Proof.
  intros Hk Hden. unfold applyMobiusTrans; cbn [MMap.a MMap.b MMap.c MMap.d].
  field. cx_nonzero.
Qed.

(** Claim C3: for pairwise distinct [P], [Q], [R] the transform built by
    [MobiusMap3PointsTo_m101], applied in forward mode, sends [P] to -1,
    [Q] to 0 and [R] to 1. *)
Theorem MobiusMap3PointsTo_m101_sends_to_m101 (P Q R : Complex) :
  P <> Q -> Q <> R -> P <> R ->
  let M := MobiusMap3PointsTo_m101 P Q R in
  applyMobiusTrans M P false = mkComplex (-1) 0 /\
  applyMobiusTrans M Q false = mkComplex 0 0 /\
  applyMobiusTrans M R false = mkComplex 1 0.
Proof.
  intros HPQ HQR HPR.
  pose proof (mobius_radicand_neq_zero P Q R HPQ HQR HPR) as Hw.
  pose proof (first_root_neq_zero _ Hw) as Hd.
  assert (HQP : Q <> P) by congruence.
  assert (HRP : R <> P) by congruence.
  pose proof (sub_neq_zero _ _ HPR) as nPR.
  pose proof (sub_neq_zero _ _ HQP) as nQP.
  pose proof (sub_neq_zero _ _ HQR) as nQR.
  pose proof (sub_neq_zero _ _ HRP) as nRP.
  unfold MobiusMap3PointsTo_m101.
  fold (mobius_radicand P Q R).
  set (denom := first_root (root (mobius_radicand P Q R) 2)) in *.
  cbv zeta. rewrite !mulRe_mul, minus_one_as_opp.
  assert (EP : add (sub (mul (mul P (Copp CMP_ONE)) (sub Q R)) (mul R (sub Q P)))
                   (mul (add (sub Q P) (sub Q R)) P)
               = mul (sub P R) (sub Q P)) by ring.
  assert (EQ : add (sub (mul (mul P (Copp CMP_ONE)) (sub Q R)) (mul R (sub Q P)))
                   (mul (add (sub Q P) (sub Q R)) Q)
               = mul (add CMP_ONE CMP_ONE) (mul (sub Q P) (sub Q R))) by ring.
  assert (ER : add (sub (mul (mul P (Copp CMP_ONE)) (sub Q R)) (mul R (sub Q P)))
                   (mul (add (sub Q P) (sub Q R)) R)
               = mul (sub R P) (sub Q R)) by ring.
  repeat split.
  - rewrite forward_common_denominator; [rewrite EP | exact Hd | rewrite EP].
    + field. cx_nonzero.
    + apply mul_neq_zero; assumption.
  - rewrite forward_common_denominator; [rewrite EQ | exact Hd | rewrite EQ].
    + fold CMP_ZERO. field. cx_nonzero.
    + repeat apply mul_neq_zero; auto using two_neq_zero.
  - rewrite forward_common_denominator; [rewrite ER | exact Hd | rewrite ER].
    + fold CMP_ONE. field. cx_nonzero.
    + apply mul_neq_zero; assumption.
Qed.

(** ** The circle through three points *)

Lemma det3_circleFrom3Points (p1 p2 p3 : Complex) :
  det3 p1 p2 p3 =
  (x p1 - x p2) * (y p1 - y p3) - (y p1 - y p2) * (x p1 - x p3).
Proof. reflexivity. Qed.

Lemma circleFrom3Points_normSq (p1 p2 p3 : Complex) :
  det3 p1 p2 p3 <> 0 ->
  let o := center (circleFrom3Points p1 p2 p3) in
  normSq (sub o p2) = normSq (sub o p1) /\
  normSq (sub o p3) = normSq (sub o p1).
Proof.
  unfold det3. intros Hdet.
  unfold circleFrom3Points, normSq; cbn [center sub x y].
  split; field; exact Hdet.
Qed.

Lemma circleFrom3Points_radius (p1 p2 p3 : Complex) :
  radius (circleFrom3Points p1 p2 p3)
  = getNorm (sub (center (circleFrom3Points p1 p2 p3)) p1).
Proof. reflexivity. Qed.

(** A point at equal distances from the three points is the computed
    center. *)
Lemma circumcenter_unique (p1 p2 p3 o : Complex) :
  det3 p1 p2 p3 <> 0 ->
  normSq (sub o p2) = normSq (sub o p1) ->
  normSq (sub o p3) = normSq (sub o p1) ->
  o = center (circleFrom3Points p1 p2 p3).
Proof.
  unfold det3. intros Hdet H2 H3.
  unfold normSq in H2, H3; cbn [sub x y] in H2, H3.
  unfold circleFrom3Points; cbn [center].
  destruct o as [ox oy], p1 as [x1 y1], p2 as [x2 y2], p3 as [x3 y3];
    cbn [x y] in *.
  set (dt := (x1 - x2) * (y1 - y3) - (y1 - y2) * (x1 - x3)) in *.
  assert (HE : (x1 - x2) * ox + (y1 - y2) * oy
               = (x1 * x1 - x2 * x2 + y1 * y1 - y2 * y2) * (1 / 2)) by lra.
  assert (HF : (x1 - x3) * ox + (y1 - y3) * oy
               = (x1 * x1 - x3 * x3 + y1 * y1 - y3 * y3) * (1 / 2)) by lra.
  assert (Hx : ox * dt =
    (y1 - y3) * ((x1 * x1 - x2 * x2 + y1 * y1 - y2 * y2) * (1 / 2)) -
    (y1 - y2) * ((x1 * x1 - x3 * x3 + y1 * y1 - y3 * y3) * (1 / 2)))
    by (rewrite <- HE, <- HF; unfold dt; ring).
  assert (Hy : oy * dt =
    - (x1 - x3) * ((x1 * x1 - x2 * x2 + y1 * y1 - y2 * y2) * (1 / 2)) +
    (x1 - x2) * ((x1 * x1 - x3 * x3 + y1 * y1 - y3 * y3) * (1 / 2)))
    by (rewrite <- HE, <- HF; unfold dt; ring).
  f_equal.
  - rewrite <- Hx. field. exact Hdet.
  - rewrite <- Hy. field. exact Hdet.
Qed.

(** ** Comparisons *)

Lemma Rltb_true (a b : R) : a < b -> Rltb a b = true.
Proof. intros H. unfold Rltb. destruct (Rlt_dec a b); [reflexivity|contradiction]. Qed.

Lemma Rltb_false (a b : R) : b <= a -> Rltb a b = false.
Proof. intros H. unfold Rltb. destruct (Rlt_dec a b); [lra|reflexivity]. Qed.

Lemma Rltb_spec (a b : R) : Rltb a b = true <-> a < b.
Proof.
  unfold Rltb. destruct (Rlt_dec a b); split; intros; auto; discriminate.
Qed.

Lemma Rltb_spec_false (a b : R) : Rltb a b = false <-> b <= a.
Proof.
  unfold Rltb. destruct (Rlt_dec a b); split; intros; auto; try discriminate; lra.
Qed.

Lemma Rgeb_true (a b : R) : b <= a -> Rgeb a b = true.
Proof. intros H. unfold Rgeb. destruct (Rle_dec b a); [reflexivity|contradiction]. Qed.

Lemma Rgeb_false (a b : R) : a < b -> Rgeb a b = false.
Proof. intros H. unfold Rgeb. destruct (Rle_dec b a); [lra|reflexivity]. Qed.

Lemma EPS_pos : 0 < EPS.
Proof. unfold EPS. apply Rinv_0_lt_compat, pow_lt. lra. Qed.

Lemma EPS_small : EPS < 1 / 1000.
Proof.
  unfold EPS.
  replace (1 / 1000) with (/ 10 ^ 3) by (simpl; field).
  apply Rinv_lt_contravar.
  - apply Rmult_lt_0_compat; apply pow_lt; lra.
  - apply Rlt_pow; [lra | lia].
Qed.

(** ** Norms *)

Lemma getNorm_mulRe (z : Complex) (k : R) :
  getNorm (mulRe z k) = Rabs k * getNorm z.
Proof.
  unfold getNorm, Math_sqrt. apply sqrt_unique.
  - apply Rmult_le_pos; [apply Rabs_pos | apply sqrt_pos].
  - transitivity ((Rabs k * Rabs k) * (sqrt (normSq z) * sqrt (normSq z)));
      [ring|].
    rewrite sqrt_sqrt by apply normSq_nonneg.
    replace (Rabs k * Rabs k) with (k * k)
      by (unfold Rabs; destruct (Rcase_abs k); ring).
    unfold normSq; simpl; ring.
Qed.

Lemma getNorm_real (k : R) : getNorm (mkComplex k 0) = Rabs k.
Proof.
  unfold getNorm, Math_sqrt, normSq; simpl. apply sqrt_unique.
  - apply Rabs_pos.
  - unfold Rabs; destruct (Rcase_abs k); ring.
Qed.

Lemma getNorm_zero_iff (z : Complex) : getNorm z = 0 <-> z = CMP_ZERO.
Proof.
  split.
  - intros H. destruct (Req_dec_T (normSq z) 0) as [E|E].
    + unfold normSq in E. apply Complex_eq; simpl; nra.
    + apply Complex_neq_normSq, getNorm_pos in E. lra.
  - intros ->. unfold getNorm, Math_sqrt, normSq; simpl.
    replace (0 * 0 + 0 * 0) with 0 by ring. apply sqrt_0.
Qed.

(** ** Two tangent circles *)

Lemma tangent_circles_meet_once (c1 c2 : Complex) (r1 r2 : R) :
  0 <= r1 -> 0 <= r2 ->
  getNorm (sub c2 c1) = r1 + r2 ->
  EPS <= getNorm (sub c2 c1) ->
  circleCircleIntersections c1 r1 c2 r2
  = [add c1 (mulRe (sub c2 c1) (r1 / (r1 + r2)))].
Proof.
  intros H1 H2 Hd He. pose proof EPS_pos as Hp.
  unfold circleCircleIntersections. rewrite Hd in *.
  set (d := r1 + r2) in *.
  assert (Hg1 : Rgtb d d = false) by (apply Rltb_false; lra).
  assert (Hg2 : Rltb d (Math_abs (r1 - r2)) = false).
  { apply Rltb_false. unfold Math_abs, Rabs, d.
    destruct (Rcase_abs (r1 - r2)); lra. }
  assert (Hg3 : Rltb d EPS = false) by (apply Rltb_false; lra).
  rewrite Hg1, Hg2, Hg3. cbn [orb].
  assert (Hx : (r1 * r1 - r2 * r2 + d * d) / (2 * d) = r1)
    by (unfold d; field; unfold d in *; lra).
  rewrite Hx.
  replace (r1 * r1 - r1 * r1) with 0 by ring.
  rewrite (Rltb_false 0 0) by lra.
  unfold Math_sqrt. rewrite sqrt_0, (Rltb_true 0 EPS) by exact Hp.
  f_equal. apply Complex_eq; simpl; ring.
Qed.

(** ** A circle and a line through the origin *)

Lemma getNorm_le_iff (z w : Complex) :
  getNorm z <= getNorm w <-> normSq z <= normSq w.
Proof.
  unfold getNorm, Math_sqrt. split.
  - intros H. apply sqrt_le_0; auto using normSq_nonneg.
  - intros H. apply sqrt_le_1; auto using normSq_nonneg.
Qed.

(** The candidate kept by [cand1.getNorm() < cand2.getNorm() ? cand1 : cand2]
    is one of the two and has the smaller norm. *)
Lemma smaller_norm_choice (cand1 cand2 : Complex) :
  let V := if Rltb (getNorm cand1) (getNorm cand2) then cand1 else cand2 in
  (V = cand1 \/ V = cand2) /\ getNorm V <= getNorm cand1 /\
  getNorm V <= getNorm cand2.
Proof.
  cbv zeta. unfold Rltb.
  destruct (Rlt_dec (getNorm cand1) (getNorm cand2)); repeat split; auto; lra.
Qed.

Lemma originLine_negative_disc (invCen : Complex) (invRad : R) (refDir : Complex) :
  EPS < Math_abs (- x refDir) ->
  originLineDisc invCen invRad refDir < 0 ->
  intersectCircleWithOriginLine invCen invRad refDir = None.
Proof.
  intros Hny Hdisc. unfold intersectCircleWithOriginLine.
  unfold Rgtb. rewrite (Rltb_true _ _ Hny).
  unfold originLineDisc in Hdisc. cbv zeta in Hdisc.
  rewrite (Rltb_true _ _ Hdisc). reflexivity.
Qed.

Lemma originLine_intersection (invCen : Complex) (invRad : R) (refDir : Complex) :
  EPS < Math_abs (- x refDir) ->
  0 <= originLineDisc invCen invRad refDir ->
  exists V,
    intersectCircleWithOriginLine invCen invRad refDir = Some V /\
    onOriginLine refDir V /\ onCircle invCen invRad V /\
    forall W, onOriginLine refDir W -> onCircle invCen invRad W ->
              getNorm V <= getNorm W.
Proof.
  intros Hny Hdisc. pose proof EPS_pos as Hp.
  assert (Hx : x refDir <> 0).
  { intros E. rewrite E in Hny. unfold Math_abs in Hny.
    rewrite Ropp_0, Rabs_R0 in Hny. lra. }
  unfold intersectCircleWithOriginLine.
  unfold Rgtb. rewrite (Rltb_true _ _ Hny).
  unfold originLineDisc in Hdisc. cbv zeta in Hdisc.
  rewrite (Rltb_false _ _ Hdisc).
  set (slope := - y refDir / - x refDir) in *.
  set (A := 1 + slope * slope) in *.
  set (B := -2 * (x invCen + slope * y invCen)) in *.
  set (C := x invCen * x invCen + y invCen * y invCen - invRad * invRad) in *.
  set (disc := B * B - 4 * A * C) in *.
  assert (HA : 0 < A) by (unfold A; nra).
  assert (Hsq : Math_sqrt disc * Math_sqrt disc = disc)
    by (apply sqrt_sqrt; exact Hdisc).
  set (sq := Math_sqrt disc) in *.
  set (x1 := (- B + sq) / (2 * A)).
  set (x2 := (- B - sq) / (2 * A)).
  assert (Hslope : slope * x refDir = y refDir) by (unfold slope; field; exact Hx).
  assert (Hfac : forall t, A * t * t + B * t + C = A * (t - x1) * (t - x2)).
  { intros t. unfold x1, x2.
    transitivity (A * t * t + B * t + (B * B - sq * sq) / (4 * A)).
    - rewrite Hsq. unfold disc. field. lra.
    - field. lra. }
  assert (Hcirc : forall t, onCircle invCen invRad (mkComplex t (slope * t))
                            <-> A * t * t + B * t + C = 0).
  { intros t. unfold onCircle, normSq; cbn [sub x y]. unfold A, B, C.
    split; intros H; nra. }
  assert (Hline : forall t, onOriginLine refDir (mkComplex t (slope * t))).
  { intros t. unfold onOriginLine; cbn [x y]. rewrite <- Hslope. ring. }
  destruct (smaller_norm_choice (mkComplex x1 (slope * x1))
                               (mkComplex x2 (slope * x2))) as (Hor & Hle1 & Hle2).
  eexists; split; [reflexivity|].
  set (V := if Rltb _ _ then _ else _) in *.
  split; [|split].
  - destruct Hor as [-> | ->]; apply Hline.
  - destruct Hor as [-> | ->]; apply Hcirc; rewrite Hfac; ring.
  - intros [wx wy] HlW HcW. unfold onOriginLine in HlW; cbn [x y] in HlW.
    assert (Hwy : wy = slope * wx).
    { unfold slope. apply Rmult_eq_reg_r with (r := x refDir); [|exact Hx].
      transitivity (y refDir * wx); [lra | field; exact Hx]. }
    subst wy. apply Hcirc in HcW. rewrite Hfac in HcW.
    assert (Hroot : wx = x1 \/ wx = x2).
    { destruct (Rmult_integral _ _ HcW) as [H|H]; [|right; lra].
      destruct (Rmult_integral _ _ H); [lra | left; lra]. }
    destruct Hroot as [-> | ->]; assumption.
Qed.

Lemma originLine_vertical (invCen : Complex) (invRad : R) (refDir : Complex) :
  Math_abs (- x refDir) <= EPS ->
  exists V,
    intersectCircleWithOriginLine invCen invRad refDir = Some V /\
    x V = 0 /\
    (0 <= verticalRadTerm invCen invRad ->
       onCircle invCen invRad V /\
       forall W, x W = 0 -> onCircle invCen invRad W -> getNorm V <= getNorm W) /\
    (verticalRadTerm invCen invRad < 0 -> V = mkComplex 0 (y invCen)).
Proof.
  intros Hny. unfold intersectCircleWithOriginLine, verticalRadTerm.
  unfold Rgtb. rewrite (Rltb_false _ _ Hny).
  set (radTerm := invRad * invRad - x invCen * x invCen).
  destruct (smaller_norm_choice
    (mkComplex 0 (y invCen + Math_sqrt (if Rltb radTerm 0 then 0 else radTerm)))
    (mkComplex 0 (y invCen - Math_sqrt (if Rltb radTerm 0 then 0 else radTerm))))
    as (Hor & Hle1 & Hle2).
  eexists; split; [reflexivity|].
  set (V := if Rltb (getNorm _) _ then _ else _) in *.
  split; [destruct Hor as [-> | ->]; reflexivity|].
  split.
  - intros Hpos. rewrite (Rltb_false _ _ Hpos) in *.
    assert (Hsq : Math_sqrt radTerm * Math_sqrt radTerm = radTerm)
      by (apply sqrt_sqrt; exact Hpos).
    set (sq := Math_sqrt radTerm) in *.
    split.
    + destruct Hor as [-> | ->]; unfold onCircle, normSq; cbn [sub x y];
        unfold radTerm in Hsq; nra.
    + intros [wx wy] Hwx HcW. cbn [x] in Hwx. subst wx.
      unfold onCircle, normSq in HcW; cbn [sub x y] in HcW.
      assert (Hfac : (wy - (y invCen + sq)) * (wy - (y invCen - sq)) = 0)
        by (unfold radTerm in Hsq; nra).
      destruct (Rmult_integral _ _ Hfac) as [H|H].
      * apply Rminus_diag_uniq in H. rewrite H. exact Hle1.
      * apply Rminus_diag_uniq in H. rewrite H. exact Hle2.
  - intros Hneg. rewrite (Rltb_true _ _ Hneg) in *.
    unfold Math_sqrt in Hor. rewrite sqrt_0 in Hor.
    destruct Hor as [-> | ->]; f_equal; ring.
Qed.

(** When the radicand of the vertical branch is negative the line [x = 0]
    does not meet the circle. *)
Lemma vertical_no_intersection (invCen : Complex) (invRad : R) (W : Complex) :
  verticalRadTerm invCen invRad < 0 -> x W = 0 -> ~ onCircle invCen invRad W.
Proof.
  unfold verticalRadTerm, onCircle, normSq; cbn [sub x y].
  intros Hneg Hx Hc. rewrite Hx in Hc.
  pose proof (Rle_0_sqr (y W - y invCen)) as H0. unfold Rsqr in H0. lra.
Qed.

(** ** The reduction loop *)

Module ShaderFacts.
Import Shader.

Section Uniforms.
Variables (invCen refNrm : vec2) (invRad : R).

(** A pass that leaves [fund] set has moved nothing, and its point
    passes the three tests. *)
Lemma reducePass_fund (st st' : ReduceState) :
  reducePass invCen refNrm invRad st = (st', true) ->
  st' = st /\ inFundamentalDomain invCen refNrm invRad (rs_z st).
Proof.
  unfold reducePass, inFundamentalDomain. cbv zeta.
  destruct (Rltb (normSq (vsub (rs_z st) invCen)) (invRadSq invRad)) eqn:E1;
    lazy iota.
  { destruct (Rltb (dot _ refNrm) 0); lazy iota;
      destruct (Rltb (y _) 0); lazy iota; intros H; discriminate H. }
  destruct (Rltb (dot (rs_z st) refNrm) 0) eqn:E2; lazy iota.
  { destruct (Rltb (y _) 0); lazy iota; intros H; discriminate H. }
  destruct (Rltb (y (rs_z st)) 0) eqn:E3; lazy iota.
  { intros H; discriminate H. }
  intros H. injection H as <-.
  apply Rltb_spec_false in E1, E2, E3.
  split; [destruct st; reflexivity | repeat split; assumption].
Qed.

Lemma reduceLoop_break (k : nat) (st st' : ReduceState) :
  reduceLoop invCen refNrm invRad k st = (st', true) ->
  inFundamentalDomain invCen refNrm invRad (rs_z st').
Proof.
  revert st. induction k as [|k IH]; intros st; cbn [reduceLoop].
  - intros H; inversion H.
  - destruct (reducePass invCen refNrm invRad st) as [s1 fund] eqn:Hp.
    destruct fund.
    + intros H. injection H as <-.
      destruct (reducePass_fund _ _ Hp) as [-> Hdom]. exact Hdom.
    + apply IH.
Qed.

Lemma reduceLoop_first_pass (k : nat) (st : ReduceState) :
  inFundamentalDomain invCen refNrm invRad (rs_z st) ->
  reduceLoop invCen refNrm invRad (S k) st = (st, true).
Proof.
  intros (H1 & H2 & H3). cbn [reduceLoop]. unfold reducePass. cbv zeta.
  rewrite (Rltb_false _ _ H1), (Rltb_false _ _ H2), (Rltb_false _ _ H3).
  destruct st; reflexivity.
Qed.

End Uniforms.
End ShaderFacts.

(** ** The circle construction on binary64 numbers *)

Module F64Facts.
Import Floats.PrimFloat Floats.SpecFloat Floats.FloatAxioms Floats.FloatOps.
Import F64.
Local Open Scope float_scope.

Lemma nonfinite_is_finite (f : float) :
  nonfiniteSF (Prim2SF f) = true -> is_finite f = false.
Proof.
  unfold is_finite, is_nan, is_infinity.
  rewrite !eqb_spec, abs_spec.
  destruct (Prim2SF f) as [s| s| |s m e]; cbn; try discriminate.
  - destruct s; reflexivity.
  - reflexivity.
Qed.

Lemma nanOrPlusInf_nonfinite (s : spec_float) :
  nanOrPlusInfSF s = true -> nonfiniteSF s = true.
Proof. destruct s as [b| b| |b m e]; try destruct b; cbn; congruence. Qed.

Lemma is_zero_spec (z : float) :
  is_zero z = true -> exists s, Prim2SF z = S754_zero s.
Proof.
  unfold is_zero. rewrite eqb_spec.
  destruct (Prim2SF z) as [s| s| |s m e]; cbn; try discriminate.
  - eexists; reflexivity.
  - destruct s; discriminate.
  - destruct s; discriminate.
Qed.

Lemma div_by_zero_nonfinite (a z : float) :
  is_zero z = true -> nonfiniteSF (Prim2SF (a / z)) = true.
Proof.
  intros Hz. destruct (is_zero_spec z Hz) as [s Hs].
  rewrite div_spec, Hs.
  destruct (Prim2SF a) as [sa| sa| |sa m e]; reflexivity.
Qed.

Lemma sub_nonfinite (a b : float) :
  nonfiniteSF (Prim2SF a) = true -> nonfiniteSF (Prim2SF (a - b)) = true.
Proof.
  rewrite sub_spec.
  destruct (Prim2SF a) as [sa| sa| |sa ma ea]; cbn; try discriminate;
    intros _; destruct (Prim2SF b) as [sb| sb| |sb mb eb];
    try destruct sa; try destruct sb; reflexivity.
Qed.

Lemma square_nonfinite (a : float) :
  nonfiniteSF (Prim2SF a) = true -> nanOrPlusInfSF (Prim2SF (a * a)) = true.
Proof.
  rewrite mul_spec.
  destruct (Prim2SF a) as [sa| sa| |sa ma ea]; cbn; try discriminate;
    intros _; try destruct sa; reflexivity.
Qed.

Lemma add_nanOrPlusInf (a b : float) :
  nanOrPlusInfSF (Prim2SF a) = true -> nanOrPlusInfSF (Prim2SF b) = true ->
  nanOrPlusInfSF (Prim2SF (a + b)) = true.
Proof.
  rewrite add_spec.
  destruct (Prim2SF a) as [sa| sa| |sa ma ea]; try destruct sa; cbn;
    try discriminate; intros _;
    destruct (Prim2SF b) as [sb| sb| |sb mb eb]; try destruct sb; cbn;
    try discriminate; reflexivity.
Qed.

Lemma sqrt_nanOrPlusInf (a : float) :
  nanOrPlusInfSF (Prim2SF a) = true -> nanOrPlusInfSF (Prim2SF (sqrt a)) = true.
Proof.
  rewrite sqrt_spec.
  destruct (Prim2SF a) as [sa| sa| |sa ma ea]; try destruct sa; cbn;
    try discriminate; reflexivity.
Qed.

(** Claim C2, as the code has it: [circleFrom3Points] makes no test on
    the determinant and always returns a record.  Whenever the determinant
    it computes is zero, both coordinates of the returned center and the
    returned radius are not finite numbers (NaN or an infinity), which is
    what a caller can detect.  Nothing is said of a triple whose computed
    determinant is not zero, collinear or not. *)
Theorem circleFrom3Points_zero_determinant (p1 p2 p3 : Complex) :
  is_zero (det3 p1 p2 p3) = true ->
  let c := circleFrom3Points p1 p2 p3 in
  is_finite (x (center c)) = false /\
  is_finite (y (center c)) = false /\
  is_finite (radius c) = false.
Proof.
  intros Hz. unfold circleFrom3Points. cbv zeta. cbn [center radius x y].
  fold (det3 p1 p2 p3).
  set (cx := (_ / det3 p1 p2 p3)).
  set (cy := (_ / det3 p1 p2 p3)).
  assert (Hx : nonfiniteSF (Prim2SF cx) = true)
    by (apply div_by_zero_nonfinite; exact Hz).
  assert (Hy : nonfiniteSF (Prim2SF cy) = true)
    by (apply div_by_zero_nonfinite; exact Hz).
  repeat split; apply nonfinite_is_finite; try assumption.
  apply nanOrPlusInf_nonfinite.
  unfold getNorm, normSq, sub; cbn [x y].
  apply sqrt_nanOrPlusInf, add_nanOrPlusInf;
    apply square_nonfinite, sub_nonfinite; assumption.
Qed.

Example circle_through_unit_points :
  circleFrom3Points (mkComplex (-1) 0) (mkComplex 1 0) (mkComplex 0 1)
  = mkCircle (mkComplex (-0) 0) 1.
Proof. vm_compute. reflexivity. Qed.

End F64Facts.

(** ** The real numbers behind the doubles *)

Lemma toR_finite (f : Floats.PrimFloat.float) (s : bool) (m : positive)
  (e : Z) :
  Floats.FloatOps.Prim2SF f = Floats.SpecFloat.S754_finite s m e ->
  F64.toR f = (if s then -1 else 1) * IZR (Z.pos m) * powerRZ 2 e.
Proof. intros H. unfold F64.toR. rewrite H. reflexivity. Qed.

(** Two doubles with the same sign and mantissa differ by a power of two,
    exactly. *)
Lemma toR_scaled (f g : Floats.PrimFloat.float) (s : bool) (m : positive)
  (e k : Z) :
  Floats.FloatOps.Prim2SF f = Floats.SpecFloat.S754_finite s m e ->
  Floats.FloatOps.Prim2SF g = Floats.SpecFloat.S754_finite s m (e + k) ->
  F64.toR g = powerRZ 2 k * F64.toR f.
Proof.
  intros Hf Hg. rewrite (toR_finite f s m e Hf), (toR_finite g s m _ Hg).
  rewrite powerRZ_add by lra. ring.
Qed.

Lemma powerRZ_2_m52 : powerRZ 2 (-52) = / 4503599627370496.
Proof.
  unfold powerRZ. f_equal. change (Pos.to_nat 52) with 52%nat. simpl. ring.
Qed.

Lemma powerRZ_2_m53 : powerRZ 2 (-53) = / 9007199254740992.
Proof.
  unfold powerRZ. f_equal. change (Pos.to_nat 53) with 53%nat. simpl. ring.
Qed.

Lemma F64_distance_same_y (a b : F64.Complex) :
  F64.y a = F64.y b ->
  F64_distance a b = Rabs (F64.toR (F64.x b) - F64.toR (F64.x a)).
Proof.
  intros H. unfold F64_distance, F64_toComplex, sub. cbn [x y]. rewrite H.
  replace (F64.toR (F64.y b) - F64.toR (F64.y b)) with 0 by ring.
  apply getNorm_real.
Qed.

(** Three points of which the second and third are multiples of the first
    lie on one line through the origin. *)
Lemma F64_det3_scaled (p1 p2 p3 : F64.Complex) (j k : R) :
  F64.toR (F64.x p2) = j * F64.toR (F64.x p1) ->
  F64.toR (F64.y p2) = j * F64.toR (F64.y p1) ->
  F64.toR (F64.x p3) = k * F64.toR (F64.x p1) ->
  F64.toR (F64.y p3) = k * F64.toR (F64.y p1) ->
  F64_det3 p1 p2 p3 = 0.
Proof.
  intros H1 H2 H3 H4. unfold F64_det3, det3, F64_toComplex. cbn [x y].
  rewrite H1, H2, H3, H4. ring.
Qed.

(** ** The generator: how a call ends *)

Lemma Returned_inj {A : Type} (a b : A) : Returned a = Returned b -> a = b.
Proof. intros H. injection H as H. exact H. Qed.

Lemma deref_cases {A B : Type} (v : option A) (k : A -> outcome B) :
  (exists a, v = Some a /\ deref v k = k a) \/
  (v = None /\ deref v k = Thrown "TypeError").
Proof. destruct v as [a|]; [left; exists a | right]; split; reflexivity. Qed.

(** The only exception a call can end with is the [TypeError] of a read
    through [undefined] or [null]. *)
Lemma generateTilingParams_outcome (p q : Z) (edgeThickness : R) :
  (exists d, generateTilingParams p q edgeThickness = Returned d) \/
  generateTilingParams p q edgeThickness = Thrown "TypeError".
Proof.
  unfold generateTilingParams. cbv zeta.
  repeat match goal with
  | |- context [deref ?v ?k] =>
      destruct (deref_cases v k) as [(? & _ & ->) | (_ & ->)];
      [ cbv beta | right; reflexivity ]
  end.
  left. eexists. reflexivity.
Qed.

Lemma generateTilingParams_vertices (p q : Z) (edgeThickness : R) (d : TD.t) :
  generateTilingParams p q edgeThickness = Returned d ->
  TD.V0 d = gen_V0 /\ TD.V1 d = gen_V1 p q /\ gen_V2 p q = Some (TD.V2 d) /\
  TD.invCen d = gen_invCen p q /\ TD.invRad d = gen_invRad p q.
Proof.
  unfold generateTilingParams. cbv zeta.
  destruct (nth_error _ 0) as [upper|]; [|discriminate].
  destruct (nth_error _ 1) as [lower|]; [|discriminate].
  destruct (gen_V2 p q) as [v2|]; [|discriminate].
  cbn [deref].
  repeat match goal with
  | |- context [deref ?v ?k] =>
      destruct (deref_cases v k) as [(? & _ & ->) | (_ & ->)];
      [ cbv beta | discriminate ]
  end.
  intros H. apply Returned_inj in H. subst d.
  cbn [TD.V0 TD.V1 TD.V2 TD.invCen TD.invRad]. repeat split; reflexivity.
Qed.

(** ** The fundamental triangle of a hyperbolic tiling *)

Section ValidTiling.

Variables p q : Z.
Hypothesis Hp : (3 <= p)%Z.
Hypothesis Hq : (3 <= q)%Z.
Hypothesis Hpq : ((p - 2) * (q - 2) > 4)%Z.

Let alpha : R := PI / IZR p.
Let beta : R := PI / IZR q.

Lemma valid_angles :
  0 < alpha <= PI / 3 /\ 0 < beta <= PI / 3 /\ alpha + beta < PI / 2.
Proof.
  pose proof PI_RGT_0 as Hpi.
  assert (HP : 3 <= IZR p) by (apply IZR_le; exact Hp).
  assert (HQ : 3 <= IZR q) by (apply IZR_le; exact Hq).
  assert (HZ : (2 * (p + q) + 1 <= p * q)%Z) by lia.
  apply IZR_le in HZ.
  rewrite plus_IZR, !mult_IZR, plus_IZR in HZ.
  assert (Hinv : forall n, 3 <= n -> 0 < PI / n <= PI / 3).
  { intros n Hn. split.
    - apply Rdiv_lt_0_compat; lra.
    - unfold Rdiv. apply Rmult_le_compat_l; [lra|].
      apply Rinv_le_contravar; lra. }
  split; [apply Hinv; exact HP|]. split; [apply Hinv; exact HQ|].
  unfold alpha, beta.
  replace (PI / IZR p + PI / IZR q)
    with (PI * ((IZR p + IZR q) / (IZR p * IZR q))) by (field; lra).
  assert (Hfrac : (IZR p + IZR q) / (IZR p * IZR q) < 1 / 2).
  { apply Rmult_lt_reg_r with (r := IZR p * IZR q); [nra|].
    unfold Rdiv at 1. rewrite Rmult_assoc, Rinv_l by nra. lra. }
  nra.
Qed.

(** The quotient under the square root of [rSide] lies strictly between
    0 and 1, and [refDir] points into the first sextant. *)
Lemma valid_trigonometry :
  1 / 2 <= cos alpha <= 1 /\ 0 < sin alpha /\
  0 < (1 / tan beta - sin alpha / cos alpha)
      / (1 / tan beta + sin alpha / cos alpha) < 1.
Proof.
  destruct valid_angles as ((Ha0 & Ha1) & (Hb0 & Hb1) & Hab).
  pose proof PI_RGT_0 as Hpi.
  assert (Hc : 1 / 2 <= cos alpha).
  { rewrite <- cos_PI3. apply cos_decr_1; lra. }
  assert (Hc1 : cos alpha <= 1) by apply COS_bound.
  assert (Hs : 0 < sin alpha) by (apply sin_gt_0; lra).
  assert (Hcb : 0 < cos beta) by (apply cos_gt_0; lra).
  assert (Hsb : 0 < sin beta) by (apply sin_gt_0; lra).
  assert (Hsum : 0 < cos (alpha + beta)) by (apply cos_gt_0; lra).
  rewrite cos_plus in Hsum.
  repeat split; try assumption; unfold tan.
  - apply Rdiv_lt_0_compat.
    + replace (1 / (sin beta / cos beta) - sin alpha / cos alpha)
        with ((cos alpha * cos beta - sin alpha * sin beta)
              / (sin beta * cos alpha)) by (field; lra).
      apply Rdiv_lt_0_compat; nra.
    + replace (1 / (sin beta / cos beta) + sin alpha / cos alpha)
        with ((cos alpha * cos beta + sin alpha * sin beta)
              / (sin beta * cos alpha)) by (field; lra).
      apply Rdiv_lt_0_compat; nra.
  - assert (Hden : 0 < 1 / (sin beta / cos beta) + sin alpha / cos alpha).
    { replace (1 / (sin beta / cos beta) + sin alpha / cos alpha)
        with ((cos alpha * cos beta + sin alpha * sin beta)
              / (sin beta * cos alpha)) by (field; lra).
      apply Rdiv_lt_0_compat; nra. }
    assert (Htan : 0 < sin alpha / cos alpha)
      by (apply Rdiv_lt_0_compat; lra).
    apply Rmult_lt_reg_r with (r := 1 / (sin beta / cos beta) + sin alpha / cos alpha);
      [exact Hden|].
    unfold Rdiv at 1. rewrite Rmult_assoc, Rinv_l by lra. lra.
Qed.

End ValidTiling.

Section FundamentalTriangle.

(** [c], [s]: the components of [refDir]; [r]: [rSide]. *)
Variables c s r : R.
Hypothesis Hc : 1 / 2 <= c <= 1.
Hypothesis Hs : 0 < s.
Hypothesis Hunit : s * s + c * c = 1.
Hypothesis Hr : 0 < r < 1.

Let cenX : R := (1 / 2) * (r * r + 1) / (r * c).
Let invRadSq : R := cenX * cenX + (-2 * c * cenX + r) * r.

Lemma inversion_circle_center : 1 < cenX * c /\ 1 < cenX.
Proof.
  assert (H1 : cenX * c = (r * r + 1) / (2 * r)) by (unfold cenX; field; lra).
  assert (H2 : 1 < (r * r + 1) / (2 * r)).
  { apply Rmult_lt_reg_r with (r := 2 * r); [lra|].
    unfold Rdiv. rewrite Rmult_assoc, Rinv_l by lra. nra. }
  split; [lra|]. rewrite <- H1 in H2. nra.
Qed.

Lemma inversion_circle_radius : invRadSq = cenX * cenX - 1.
Proof.
  assert (H1 : 2 * c * cenX * r = r * r + 1) by (unfold cenX; field; lra).
  unfold invRadSq. lra.
Qed.

Lemma inversion_circle_radius_bounds :
  0 < Math_sqrt invRadSq < cenX /\
  Math_sqrt invRadSq * Math_sqrt invRadSq = cenX * cenX - 1.
Proof.
  destruct inversion_circle_center as [_ H1].
  rewrite inversion_circle_radius. unfold Math_sqrt.
  assert (Hpos : 0 < cenX * cenX - 1) by nra.
  pose proof (sqrt_lt_R0 _ Hpos) as H2.
  pose proof (sqrt_sqrt (cenX * cenX - 1) (Rlt_le _ _ Hpos)) as H3.
  repeat split; try assumption. nra.
Qed.

(** [V1] lies on the positive real axis, strictly inside the unit disk. *)
Lemma vertex_V1 :
  let invCen := mkComplex cenX 0 in
  let invRad := Math_sqrt invRadSq in
  let V0 := mkComplex 0 0 in
  let dir := getNormalized (sub invCen V0) in
  let d_edge := getNorm (sub invCen V0) - invRad in
  mulRe dir d_edge = mkComplex (cenX - invRad) 0 /\
  0 < getNorm (mulRe dir d_edge) < 1.
Proof.
  cbv zeta.
  destruct inversion_circle_center as [_ H1].
  destruct inversion_circle_radius_bounds as [[H2 H3] H4].
  assert (Hn : getNorm (sub (mkComplex cenX 0) (mkComplex 0 0)) = cenX).
  { unfold sub; cbn [x y]. replace (cenX - 0) with cenX by ring.
    replace (0 - 0) with 0 by ring. rewrite getNorm_real.
    apply Rabs_pos_eq. lra. }
  assert (HV : mulRe (getNormalized (sub (mkComplex cenX 0) (mkComplex 0 0)))
                 (cenX - Math_sqrt invRadSq)
               = mkComplex (cenX - Math_sqrt invRadSq) 0).
  { unfold getNormalized. rewrite Hn.
    apply Complex_eq; cbn [mulRe divRe sub x y]; field; lra. }
  rewrite Hn, HV. split; [reflexivity|].
  rewrite getNorm_real, Rabs_pos_eq by lra. split; [lra|]. nra.
Qed.

(** [V2] is found (the result is not [null]) and lies strictly inside the
    unit disk. *)
Lemma vertex_V2 :
  exists V2,
    intersectCircleWithOriginLine
      (mkComplex cenX 0) (Math_sqrt invRadSq) (mkComplex c s) = Some V2 /\
    0 < getNorm V2 < 1 /\ onOriginLine (mkComplex c s) V2.
Proof.
  destruct inversion_circle_center as [H0 H1].
  destruct inversion_circle_radius_bounds as [[H2 H3] H4].
  pose proof EPS_small as He.
  unfold intersectCircleWithOriginLine; cbn [x y].
  assert (Hny : EPS < Math_abs (- c)).
  { unfold Math_abs. rewrite Rabs_left by lra. lra. }
  unfold Rgtb. rewrite (Rltb_true _ _ Hny).
  set (slope := - s / - c).
  assert (Hslope : slope * c = s) by (unfold slope; field; lra).
  assert (Hsl : 0 < slope).
  { replace slope with (s / c) by (unfold slope; field; lra).
    apply Rdiv_lt_0_compat; lra. }
  set (A := 1 + slope * slope).
  assert (HA : A * (c * c) = 1) by (unfold A; nra).
  assert (HA0 : 1 <= A) by (unfold A; nra).
  replace (-2 * (cenX + slope * 0)) with (-2 * cenX) by ring.
  replace (cenX * cenX + 0 * 0 - Math_sqrt invRadSq * Math_sqrt invRadSq)
    with 1 by lra.
  set (disc := -2 * cenX * (-2 * cenX) - 4 * A * 1).
  assert (Hdisc : 0 < disc).
  { unfold disc. assert (A < cenX * cenX); [|lra].
    assert (A * (c * c) < cenX * cenX * (c * c)) by nra. nra. }
  rewrite (Rltb_false disc 0) by lra.
  assert (Hsq : Math_sqrt disc * Math_sqrt disc = disc)
    by (apply sqrt_sqrt; lra).
  assert (Hsq0 : 0 < Math_sqrt disc) by (apply sqrt_lt_R0; exact Hdisc).
  set (sq := Math_sqrt disc) in *.
  assert (Hsqlt : sq < 2 * cenX) by (unfold disc in Hsq; nra).
  set (x1 := (- (-2 * cenX) + sq) / (2 * A)).
  set (x2 := (- (-2 * cenX) - sq) / (2 * A)).
  assert (Hx2 : 0 < x2) by (unfold x2; apply Rdiv_lt_0_compat; lra).
  assert (Hx12 : x2 < x1).
  { unfold x1, x2, Rdiv. apply Rmult_lt_compat_r; [|lra].
    apply Rinv_0_lt_compat; lra. }
  assert (Hn2 : normSq (mkComplex x2 (slope * x2)) = A * (x2 * x2))
    by (unfold normSq, A; cbn [x y]; ring).
  assert (Hn1 : normSq (mkComplex x1 (slope * x1)) = A * (x1 * x1))
    by (unfold normSq, A; cbn [x y]; ring).
  assert (Hprod : A * (x1 * x2) = 1).
  { unfold x1, x2. transitivity ((4 * cenX * cenX - sq * sq) / (4 * A));
      [field; lra|]. rewrite Hsq. unfold disc. field. lra. }
  assert (Hlt : getNorm (mkComplex x2 (slope * x2))
                < getNorm (mkComplex x1 (slope * x1))).
  { unfold getNorm, Math_sqrt. apply sqrt_lt_1_alt. rewrite Hn1, Hn2.
    split; [nra|]. apply Rmult_lt_compat_l; [lra|]. nra. }
  rewrite (Rltb_false _ _ (Rlt_le _ _ Hlt)).
  eexists; split; [reflexivity|]. split; [split|].
  - apply getNorm_pos. intros E. injection E as E _. lra.
  - replace 1 with (sqrt 1) by apply sqrt_1.
    unfold getNorm, Math_sqrt. apply sqrt_lt_1_alt. rewrite Hn2.
    split; [nra|].
    assert (A * (x2 * x2) < A * (x1 * x2)); [|lra].
    apply Rmult_lt_compat_l; [lra|]. nra.
  - unfold onOriginLine; cbn [x y]. rewrite <- Hslope. ring.
Qed.

End FundamentalTriangle.

Lemma gen_rSide_bounds (p q : Z) :
  (3 <= p)%Z -> (3 <= q)%Z -> ((p - 2) * (q - 2) > 4)%Z ->
  0 < gen_rSide p q < 1.
Proof.
  intros Hp Hq Hpq.
  destruct (valid_trigonometry p q Hp Hq Hpq) as (_ & _ & Hlo & Hhi).
  unfold gen_rSide, gen_refDir, Math_sqrt; cbn [versor x y].
  split.
  - apply sqrt_lt_R0. exact Hlo.
  - match goal with
    | |- sqrt ?e < 1 =>
        pose proof (sqrt_lt_1_alt e 1 (Logic.conj (Rlt_le _ _ Hlo) Hhi)) as H
    end.
    rewrite sqrt_1 in H. exact H.
Qed.

(** For a hyperbolic Schlafli symbol the three vertices are found, [V0] is
    the origin and [V1], [V2] are strictly inside the unit disk. *)
Lemma gen_vertices_in_disk (p q : Z) :
  (3 <= p)%Z -> (3 <= q)%Z -> ((p - 2) * (q - 2) > 4)%Z ->
  gen_V0 = mkComplex 0 0 /\
  0 < getNorm (gen_V1 p q) < 1 /\
  exists v2, gen_V2 p q = Some v2 /\ 0 < getNorm v2 < 1.
Proof.
  intros Hp Hq Hpq.
  destruct (valid_trigonometry p q Hp Hq Hpq) as (Hc & Hs & _).
  pose proof (gen_rSide_bounds p q Hp Hq Hpq) as Hr.
  assert (Hunit : sin (PI / IZR p) * sin (PI / IZR p)
                  + cos (PI / IZR p) * cos (PI / IZR p) = 1).
  { pose proof (sin2_cos2 (PI / IZR p)) as H. unfold Rsqr in H. exact H. }
  split; [reflexivity|]. split.
  - pose proof (vertex_V1 _ _ (gen_rSide p q) Hc Hs Hunit Hr) as H.
    cbv zeta in H. destruct H as [_ H].
    unfold gen_V1, gen_invCen, gen_invRad, gen_cenX, gen_V0, gen_refDir.
    cbn [versor x y]. exact H.
  - destruct (vertex_V2 _ _ (gen_rSide p q) Hc Hs Hunit Hr) as (v2 & Hv & Hn & _).
    exists v2. split; [|exact Hn].
    unfold gen_V2, gen_invCen, gen_invRad, gen_cenX, gen_refDir, versor.
    cbn [x y]. exact Hv.
Qed.

(** ** The generator at edge thickness 1 *)

Lemma inverted_common_denominator (A B C D k z : Complex) :
  k <> CMP_ZERO ->
  sub A (mul C z) <> CMP_ZERO ->
  applyMobiusTrans (MMap.mk (div A k) (div B k) (div C k) (div D k)) z true
  = div (sub (mul D z) B) (sub A (mul C z)).
Proof.
  intros Hk Hden. unfold applyMobiusTrans; cbn [MMap.a MMap.b MMap.c MMap.d].
  field. cx_nonzero.
Qed.

Lemma Copp_neq_zero (u : Complex) : u <> CMP_ZERO -> Copp u <> CMP_ZERO.
Proof.
  intros H E. apply H. injection E as E1 E2. apply Complex_eq; simpl; lra.
Qed.

(** The map built from the two ends [u], [-u] of a diameter and the origin
    is, in inverted mode, the multiplication by [-u]. *)
Lemma mobius_diameter_inverted (u z : Complex) :
  u <> CMP_ZERO ->
  applyMobiusTrans (MobiusMap3PointsTo_m101 u CMP_ZERO (Copp u)) z true
  = mul (Copp u) z.
Proof.
  intros Hu.
  assert (H1 : u <> CMP_ZERO) by exact Hu.
  assert (H2 : CMP_ZERO <> Copp u)
    by (intros E; symmetry in E; revert E; apply Copp_neq_zero; exact Hu).
  assert (H3 : u <> Copp u).
  { intros E. apply Hu. apply (f_equal x) in E as Ex. apply (f_equal y) in E as Ey.
    simpl in Ex, Ey. apply Complex_eq; simpl; lra. }
  pose proof (mobius_radicand_neq_zero _ _ _ H1 H2 H3) as Hw.
  pose proof (first_root_neq_zero _ Hw) as Hd.
  unfold MobiusMap3PointsTo_m101. fold (mobius_radicand u CMP_ZERO (Copp u)).
  set (denom := first_root (root (mobius_radicand u CMP_ZERO (Copp u)) 2)) in *.
  cbv zeta. rewrite !mulRe_mul, minus_one_as_opp.
  assert (Hden : sub (sub u (Copp u))
                   (mul (add (sub CMP_ZERO u) (sub CMP_ZERO (Copp u))) z)
                 = mul (add CMP_ONE CMP_ONE) u) by (unfold Copp; rewrite mulRe_mul, minus_one_as_opp; ring).
  rewrite inverted_common_denominator; [ | exact Hd | ].
  - rewrite Hden. unfold Copp. rewrite !mulRe_mul, minus_one_as_opp. field.
    cx_nonzero.
  - rewrite Hden. apply mul_neq_zero; [exact two_neq_zero | exact Hu].
Qed.

(** Three points at the same distance from the origin: the computed center
    is the origin. *)
Lemma circleFrom3Points_equal_norms (p1 p2 p3 : Complex) :
  normSq p2 = normSq p1 -> normSq p3 = normSq p1 ->
  center (circleFrom3Points p1 p2 p3) = CMP_ZERO.
Proof.
  unfold normSq. intros H2 H3. unfold circleFrom3Points; cbn [center].
  replace ((x p1 * x p1 - x p2 * x p2 + y p1 * y p1 - y p2 * y p2) * (1 / 2))
    with 0 by lra.
  replace ((x p1 * x p1 - x p3 * x p3 + y p1 * y p1 - y p3 * y p3) * (1 / 2))
    with 0 by lra.
  apply Complex_eq; cbn [x y CMP_ZERO]; unfold Rdiv; ring.
Qed.

Lemma thick_edge_circle_at_one (u : Complex) :
  u <> CMP_ZERO ->
  center (circleFrom3Points u (Copp u)
            (applyMobiusTrans (MobiusMap3PointsTo_m101 u CMP_ZERO (Copp u))
               (mkComplex 0 1) true))
  = CMP_ZERO.
Proof.
  intros Hu. rewrite (mobius_diameter_inverted u _ Hu).
  apply circleFrom3Points_equal_norms; unfold normSq; simpl; ring.
Qed.

(** Two circles with the same center have no intersection point: the
    distance between the centers is below the threshold. *)
Lemma concentric_circles_no_intersection (c : Complex) (r1 r2 : R) :
  circleCircleIntersections c r1 c r2 = [].
Proof.
  unfold circleCircleIntersections.
  assert (Hd : getNorm (sub c c) = 0).
  { apply getNorm_zero_iff. apply Complex_eq; simpl; ring. }
  rewrite Hd, (Rltb_true 0 EPS EPS_pos), orb_true_r. reflexivity.
Qed.

Lemma divRe_opp (v : Complex) (n : R) :
  n <> 0 -> divRe v (- n) = Copp (divRe v n).
Proof.
  intros Hn. apply Complex_eq; cbn [Copp divRe mulRe x y]; field; exact Hn.
Qed.

Lemma divRe_neq_zero (v : Complex) (n : R) :
  v <> CMP_ZERO -> n <> 0 -> divRe v n <> CMP_ZERO.
Proof.
  intros Hv Hn E. apply Hv.
  pose proof (f_equal x E) as E1. pose proof (f_equal y E) as E2.
  cbn [divRe mulRe x y CMP_ZERO] in E1, E2.
  assert (Hi : 1 / n <> 0).
  { unfold Rdiv. rewrite Rmult_1_l. apply Rinv_neq_0_compat. exact Hn. }
  apply Complex_eq; simpl.
  - destruct (Rmult_integral _ _ E1); [assumption | contradiction].
  - destruct (Rmult_integral _ _ E2); [assumption | contradiction].
Qed.

(** With [edgeThickness = 1] the thick-edge circles of V0V1 and of V2V0 are
    both centered at the origin, [circleCircleIntersections] returns [[]],
    [.filter(...)[0]] is [undefined] and [enlargedCircleAtPoint] throws. *)
Lemma generateTilingParams_thickness_one (p q : Z) :
  (3 <= p)%Z -> (3 <= q)%Z -> ((p - 2) * (q - 2) > 4)%Z ->
  generateTilingParams p q 1 = Thrown "TypeError".
Proof.
  intros Hp Hq Hpq.
  destruct (gen_vertices_in_disk p q Hp Hq Hpq) as (_ & _ & v2 & Hv2 & Hn2).
  unfold generateTilingParams. cbv zeta.
  destruct (nth_error _ 0) as [upper|]; [|reflexivity].
  destruct (nth_error _ 1) as [lower|]; [|reflexivity].
  rewrite Hv2. cbn [deref].
  assert (Hv : v2 <> CMP_ZERO).
  { intros E. apply getNorm_zero_iff in E. lra. }
  assert (Hu : divRe v2 (getNorm v2) <> CMP_ZERO)
    by (apply divRe_neq_zero; [exact Hv | lra]).
  rewrite (divRe_opp v2 (getNorm v2)) by lra.
  change gen_V0 with CMP_ZERO.
  rewrite (thick_edge_circle_at_one _ Hu).
  replace (mkComplex 1 0) with (Copp (mkComplex (-1) 0))
    by (apply Complex_eq; simpl; ring).
  rewrite thick_edge_circle_at_one
    by (intros E; injection E as E; lra).
  rewrite concentric_circles_no_intersection. reflexivity.
Qed.

(** ** The validity guard of [setValues] *)

Lemma setValuesWith_invalid {S : Type} (gen : Z -> Z -> R -> outcome TD.t)
  (p q : Z) (edgeThickness : R) (st : MenuState S) :
  ((p - 2) * (q - 2) <= 4)%Z ->
  setValuesWith gen p q edgeThickness st = (mkMenuState true (params st), None).
Proof.
  intros H. unfold setValuesWith.
  rewrite (proj2 (Z.leb_le _ _) H). reflexivity.
Qed.

Lemma generateTilingParams_never_InvalidTilingError (p q : Z) (t : R) :
  thrownWith "InvalidTilingError" (generateTilingParams p q t) = false.
Proof.
  destruct (generateTilingParams_outcome p q t) as [[d ->] | ->]; reflexivity.
Qed.

(* ================================================================== *)
(** * The specification's claims *)
(* ================================================================== *)

(** Claim C1, as the code has it: the validity test [(p-2)*(q-2) <= 4] is
    made by the caller [setValues], not by [generateTilingParams].  For an
    invalid pair [setValues] sets the error flag, keeps the stored
    parameters and returns without using the generator (the result is the
    same for every generator); [generateTilingParams] itself never ends
    with an [InvalidTilingError]. *)
Theorem setValues_rejects_invalid_tiling (S : Type) (p q : Z)
  (edgeThickness : R) (st : MenuState S) :
  ((p - 2) * (q - 2) <= 4)%Z ->
  (forall gen, setValuesWith gen p q edgeThickness st
               = (mkMenuState true (params st), None)) /\
  setValues p q edgeThickness st = (mkMenuState true (params st), None) /\
  (forall p' q' t,
     thrownWith "InvalidTilingError" (generateTilingParams p' q' t) = false).
Proof.
  intros H. split; [|split].
  - intros gen. apply setValuesWith_invalid. exact H.
  - apply setValuesWith_invalid. exact H.
  - apply generateTilingParams_never_InvalidTilingError.
Qed.

(** Claim C1, counterexample: called on the spherical pair (3,3) the
    generator does not end with an [InvalidTilingError]: it has no validity
    test, and the only exception it can end with is a [TypeError]. *)
Lemma generateTilingParams_3_3_no_InvalidTilingError :
  thrownWith "InvalidTilingError" (generateTilingParams 3 3 (1 / 50)) = false /\
  ((exists d, generateTilingParams 3 3 (1 / 50) = Returned d) \/
   generateTilingParams 3 3 (1 / 50) = Thrown "TypeError").
Proof.
  split.
  - apply generateTilingParams_never_InvalidTilingError.
  - apply generateTilingParams_outcome.
Qed.

(** Claim C4: for a transform [T] built from pairwise distinct points, the
    inverted mode undoes the forward mode at every [z] where the forward
    mode is defined (its denominator [d + c*z] is not zero), and the forward
    mode undoes the inverted mode wherever that one is defined
    ([a - c*z] not zero); in both orders the second evaluation is then
    defined as well. *)
Theorem applyMobiusTrans_round_trip (P Q R z : Complex) :
  P <> Q -> Q <> R -> P <> R ->
  let T := MobiusMap3PointsTo_m101 P Q R in
  (add (MMap.d T) (mul (MMap.c T) z) <> CMP_ZERO ->
     sub (MMap.a T) (mul (MMap.c T) (applyMobiusTrans T z false)) <> CMP_ZERO /\
     applyMobiusTrans T (applyMobiusTrans T z false) true = z) /\
  (sub (MMap.a T) (mul (MMap.c T) z) <> CMP_ZERO ->
     add (MMap.d T) (mul (MMap.c T) (applyMobiusTrans T z true)) <> CMP_ZERO /\
     applyMobiusTrans T (applyMobiusTrans T z true) false = z).
Proof.
  intros HPQ HQR HPR T.
  pose proof (mobius_determinant P Q R HPQ HQR HPR) as Hdet.
  fold T in Hdet. cbv zeta in Hdet. fold (mobius_det T) in Hdet.
  split; intros Hden; split.
  - apply inverted_defined_after_forward; assumption.
  - apply inverted_after_forward; assumption.
  - apply forward_defined_after_inverted; assumption.
  - apply forward_after_inverted; assumption.
Qed.

(** Claim C10: for pairwise distinct [P], [Q], [R] the coefficients
    returned by [MobiusMap3PointsTo_m101] satisfy [a*d - b*c = 1] exactly. *)
Theorem MobiusMap3PointsTo_m101_unimodular (P Q R : Complex) :
  P <> Q -> Q <> R -> P <> R ->
  let M := MobiusMap3PointsTo_m101 P Q R in
  sub (mul (MMap.a M) (MMap.d M)) (mul (MMap.b M) (MMap.c M)) = mkComplex 1 0.
Proof. exact (mobius_determinant P Q R). Qed.

(** Claim C6: for a triple with non-zero determinant the computed center is
    at the same distance from [p1], [p2] and [p3], the returned radius is
    that distance, and no other point and distance have this property. *)
Theorem circleFrom3Points_circumcircle (p1 p2 p3 : Complex) :
  det3 p1 p2 p3 <> 0 ->
  let c := circleFrom3Points p1 p2 p3 in
  getNorm (sub (center c) p1) = radius c /\
  getNorm (sub (center c) p2) = radius c /\
  getNorm (sub (center c) p3) = radius c /\
  0 <= radius c /\
  forall (o : Complex) (r : R),
    getNorm (sub o p1) = r -> getNorm (sub o p2) = r ->
    getNorm (sub o p3) = r ->
    o = center c /\ r = radius c.
Proof.
  intros Hdet c.
  destruct (circleFrom3Points_normSq p1 p2 p3 Hdet) as [H2 H3].
  fold c in H2, H3. cbv zeta in H2, H3.
  assert (Hr : radius c = getNorm (sub (center c) p1)) by reflexivity.
  split; [symmetry; exact Hr|].
  split; [rewrite Hr; unfold getNorm; f_equal; exact H2|].
  split; [rewrite Hr; unfold getNorm; f_equal; exact H3|].
  split; [rewrite Hr; apply getNorm_nonneg|].
  intros o r E1 E2 E3.
  assert (E : o = center c).
  { apply circumcenter_unique; [exact Hdet | |].
    - rewrite <- (getNorm_sq (sub o p2)), <- (getNorm_sq (sub o p1)).
      rewrite E1, E2. reflexivity.
    - rewrite <- (getNorm_sq (sub o p3)), <- (getNorm_sq (sub o p1)).
      rewrite E1, E3. reflexivity. }
  split; [exact E|]. rewrite Hr, <- E. symmetry. exact E1.
Qed.

(** Exact arithmetic only: were no operation rounded, two circles with
    non-negative radii whose centers are at distance exactly [r1 + r2], at
    least the threshold, would give exactly one point, [c1 + s*(c2 - c1)]
    with [s = r1/(r1+r2)] between 0 and 1, at distance [r1] from [c1].
    On binary64 numbers the program does not do this, see
    [F64Tangency] below. *)
Theorem circleCircleIntersections_externally_tangent
  (c1 c2 : Complex) (r1 r2 : R) :
  0 <= r1 -> 0 <= r2 ->
  getNorm (sub c2 c1) = r1 + r2 ->
  EPS <= getNorm (sub c2 c1) ->
  exists i,
    circleCircleIntersections c1 r1 c2 r2 = [i] /\
    i = add c1 (mulRe (sub c2 c1) (r1 / (r1 + r2))) /\
    0 <= r1 / (r1 + r2) <= 1 /\
    getNorm (sub i c1) = r1.
Proof.
  intros H1 H2 Hd He. pose proof EPS_pos as Hp.
  exists (add c1 (mulRe (sub c2 c1) (r1 / (r1 + r2)))).
  assert (Hpos : 0 < r1 + r2) by lra.
  split; [apply tangent_circles_meet_once; assumption|].
  split; [reflexivity|]. split.
  - split.
    + apply Rmult_le_pos; [exact H1 | left; apply Rinv_0_lt_compat; exact Hpos].
    + apply Rmult_le_reg_r with (r := r1 + r2); [exact Hpos|].
      unfold Rdiv. rewrite Rmult_assoc, Rinv_l by lra. lra.
  - replace (sub (add c1 (mulRe (sub c2 c1) (r1 / (r1 + r2)))) c1)
      with (mulRe (sub c2 c1) (r1 / (r1 + r2)))
      by (apply Complex_eq; simpl; ring).
    rewrite getNorm_mulRe, Hd, Rabs_pos_eq.
    + field. lra.
    + apply Rmult_le_pos; [exact H1 | left; apply Rinv_0_lt_compat; exact Hpos].
Qed.

Module F64Tangency.
Import Floats.PrimFloat.

(** Claim C7, on the numbers the program computes with.  The circles of
    center (0,0), radius 0.5 and of center (1.7,0), radius 1.2 (the doubles
    nearest to 1.7 and 1.2) are externally tangent: the distance of the
    centers is the sum of the radii, both as real numbers and as computed,
    and it is above the threshold.  The call returns two points,
    (0.49999999999999989, 2^-27) and (0.49999999999999989, -2^-27),
    neither on the line between the centers: the rounding of [h2] leaves
    [h = 2^-27], which the test [h < 1e-12] does not catch. *)
Theorem circleCircleIntersections_tangent_binary64 :
  let c1 := F64.mkComplex 0 0 in
  let r1 := 0.5%float in
  let c2 := F64.mkComplex 0x1.b333333333333p+0%float 0 in
  let r2 := 0x1.3333333333333p+0%float in
  F64_distance c1 c2 = F64.toR r1 + F64.toR r2 /\
  0 <= F64.toR r1 /\ 0 <= F64.toR r2 /\
  EPS <= F64_distance c1 c2 /\
  F64.getNorm (F64.sub c2 c1) = (r1 + r2)%float /\
  F64.circleCircleIntersections c1 r1 c2 r2
  = [F64.mkComplex 0x1.ffffffffffffep-2%float 0x1p-27%float;
     F64.mkComplex 0x1.ffffffffffffep-2%float (-0x1p-27)%float].
Proof.
  cbv zeta.
  assert (E0 : F64.toR 0%float = 0) by reflexivity.
  assert (E1 : F64.toR 0.5%float = 4503599627370496 / 9007199254740992).
  { rewrite (toR_finite _ false 4503599627370496 (-53))
      by (vm_compute; reflexivity).
    rewrite powerRZ_2_m53. lra. }
  assert (E2 : F64.toR 0x1.3333333333333p+0%float
               = 5404319552844595 / 4503599627370496).
  { rewrite (toR_finite _ false 5404319552844595 (-52))
      by (vm_compute; reflexivity).
    rewrite powerRZ_2_m52. lra. }
  assert (E3 : F64.toR 0x1.b333333333333p+0%float
               = 7656119366529843 / 4503599627370496).
  { rewrite (toR_finite _ false 7656119366529843 (-52))
      by (vm_compute; reflexivity).
    rewrite powerRZ_2_m52. lra. }
  rewrite F64_distance_same_y by reflexivity. cbn [F64.x].
  rewrite E0, E1, E2, E3, Rminus_0_r, Rabs_pos_eq by lra.
  pose proof EPS_small as He.
  split; [lra|]. split; [lra|]. split; [lra|]. split; [lra|].
  split; vm_compute; reflexivity.
Qed.

End F64Tangency.

Module F64Claims.
Import Floats.PrimFloat.
Import F64.
Local Open Scope float_scope.

Lemma circleFrom3Points_zero_determinant_witness :
  let c := circleFrom3Points (mkComplex 0 0) (mkComplex 1 1) (mkComplex 3 3) in
  is_finite (x (center c)) = false /\
  is_finite (y (center c)) = false /\
  is_finite (radius c) = false.
Proof.
  apply (F64Facts.circleFrom3Points_zero_determinant
           (mkComplex 0 0) (mkComplex 1 1) (mkComplex 3 3)).
  vm_compute. reflexivity.
Defined.

(** Claim C2, counterexample: the points (1.7, 3.1), (3.4, 6.2) and
    (6.8, 12.4), as doubles, are the first one and its multiples by 2 and
    by 4, so they are exactly collinear: their determinant without rounding
    is 0.  The determinant the code computes is 2^-49, below the threshold
    1e-12 and not zero, and the call returns the finite center
    (-65442932085227520, 35888059530608640) and radius 74637324287411392:
    no failure, and nothing a caller could test.  For (0,0), (1,0), (2,0)
    the computed determinant is zero and the call returns the record with
    center (NaN, Infinity) and radius NaN. *)
Lemma circleFrom3Points_collinear_returns :
  let p1 := mkComplex 0x1.b333333333333p+0 0x1.8cccccccccccdp+1 in
  let p2 := mkComplex 0x1.b333333333333p+1 0x1.8cccccccccccdp+2 in
  let p3 := mkComplex 0x1.b333333333333p+2 0x1.8cccccccccccdp+3 in
  F64_det3 p1 p2 p3 = 0%R /\
  det3 p1 p2 p3 = 0x1p-49 /\
  (abs (det3 p1 p2 p3) <? EPS) = true /\
  circleFrom3Points p1 p2 p3
  = mkCircle (mkComplex (-65442932085227520) 35888059530608640)
             74637324287411392 /\
  finiteCircle (circleFrom3Points p1 p2 p3) = true /\
  circleFrom3Points (mkComplex 0 0) (mkComplex 1 0) (mkComplex 2 0)
  = mkCircle (mkComplex nan infinity) nan.
Proof.
  cbv zeta. split.
  - apply (F64_det3_scaled _ _ _ (powerRZ 2 1) (powerRZ 2 2)); cbn [x y].
    + apply (toR_scaled _ _ false 7656119366529843 (-52) 1);
        vm_compute; reflexivity.
    + apply (toR_scaled _ _ false 6980579422424269 (-51) 1);
        vm_compute; reflexivity.
    + apply (toR_scaled _ _ false 7656119366529843 (-52) 2);
        vm_compute; reflexivity.
    + apply (toR_scaled _ _ false 6980579422424269 (-51) 2);
        vm_compute; reflexivity.
  - repeat split; vm_compute; reflexivity.
Qed.

End F64Claims.

(** The vertex stage: for integers [p >= 3], [q >= 3] with
    [(p-2)*(q-2) > 4] the three vertices are found ([V2] is not [null]),
    [V0] is the origin and [V1], [V2] lie strictly inside the unit disk;
    a descriptor the generator returns carries these vertices. *)
Theorem generateTilingParams_vertices_in_disk (p q : Z) :
  (3 <= p)%Z -> (3 <= q)%Z -> ((p - 2) * (q - 2) > 4)%Z ->
  gen_V0 = mkComplex 0 0 /\
  0 < getNorm (gen_V1 p q) < 1 /\
  (exists v2, gen_V2 p q = Some v2 /\ 0 < getNorm v2 < 1) /\
  forall (edgeThickness : R) (d : TD.t),
    generateTilingParams p q edgeThickness = Returned d ->
    TD.V0 d = mkComplex 0 0 /\ getNorm (TD.V1 d) < 1 /\ getNorm (TD.V2 d) < 1.
Proof.
  intros Hp Hq Hpq.
  destruct (gen_vertices_in_disk p q Hp Hq Hpq) as (H0 & H1 & v2 & Hv2 & Hn2).
  split; [exact H0|]. split; [exact H1|]. split; [exists v2; auto|].
  intros t d Hd.
  destruct (generateTilingParams_vertices p q t d Hd) as (E0 & E1 & E2 & _).
  rewrite E0, E1. split; [exact H0|]. split; [lra|].
  rewrite Hv2 in E2. injection E2 as <-. lra.
Qed.

Lemma generateTilingParams_vertices_in_disk_witness :
  gen_V0 = mkComplex 0 0 /\
  0 < getNorm (gen_V1 3 7) < 1 /\
  (exists v2, gen_V2 3 7 = Some v2 /\ 0 < getNorm v2 < 1) /\
  forall (edgeThickness : R) (d : TD.t),
    generateTilingParams 3 7 edgeThickness = Returned d ->
    TD.V0 d = mkComplex 0 0 /\ getNorm (TD.V1 d) < 1 /\ getNorm (TD.V2 d) < 1.
Proof.
  apply (generateTilingParams_vertices_in_disk 3 7); lia.
Defined.

(** Claim C5, at the input (4, 6, 1): the pair (4,6) satisfies
    [p >= 3], [q >= 3], [(p-2)*(q-2) > 4] and the edge thickness 1 is
    positive; the vertex stage gives [V0] at the origin and [V1], [V2]
    strictly inside the unit disk; but the call does not succeed.  The
    thick-edge circles of V0V1 and V2V0 have the same center, their list of
    intersection points is empty, and reading its first element's fields
    ends the call with a [TypeError]. *)
Theorem generateTilingParams_4_6_thickness_one :
  ((3 <= 4)%Z /\ (3 <= 6)%Z /\ ((4 - 2) * (6 - 2) > 4)%Z /\ 0 < 1) /\
  (gen_V0 = mkComplex 0 0 /\
   getNorm (gen_V1 4 6) < 1 /\
   exists v2, gen_V2 4 6 = Some v2 /\ getNorm v2 < 1) /\
  generateTilingParams 4 6 1 = Thrown "TypeError".
Proof.
  split; [repeat split; try lia; lra|].
  split.
  - destruct (gen_vertices_in_disk 4 6) as (H0 & H1 & v2 & Hv2 & Hn2);
      try lia.
    split; [exact H0|]. split; [lra|]. exists v2. split; [exact Hv2 | lra].
  - apply generateTilingParams_thickness_one; lia.
Qed.

(** Claim C8, as the code has it.  When [|ny| > 1e-12]: no result for a
    negative discriminant; otherwise the result is a point of the line and
    of the circle, of smallest norm among such points.  When
    [|ny| <= 1e-12] the line is taken to be [x = 0] and a point with
    [x = 0] is always returned: for a non-negative radicand it is the point
    of the circle on [x = 0] of smallest norm, for a negative radicand the
    radicand is clamped to 0 and the point is [(0, cenY)]. *)
Theorem intersectCircleWithOriginLine_cases
  (invCen : Complex) (invRad : R) (refDir : Complex) :
  (EPS < Math_abs (- x refDir) ->
     (originLineDisc invCen invRad refDir < 0 ->
        intersectCircleWithOriginLine invCen invRad refDir = None) /\
     (0 <= originLineDisc invCen invRad refDir ->
        exists V,
          intersectCircleWithOriginLine invCen invRad refDir = Some V /\
          onOriginLine refDir V /\ onCircle invCen invRad V /\
          forall W, onOriginLine refDir W -> onCircle invCen invRad W ->
                    getNorm V <= getNorm W)) /\
  (Math_abs (- x refDir) <= EPS ->
     exists V,
       intersectCircleWithOriginLine invCen invRad refDir = Some V /\
       x V = 0 /\
       (0 <= verticalRadTerm invCen invRad ->
          onCircle invCen invRad V /\
          forall W, x W = 0 -> onCircle invCen invRad W ->
                    getNorm V <= getNorm W) /\
       (verticalRadTerm invCen invRad < 0 -> V = mkComplex 0 (y invCen))).
Proof.
  split.
  - intros Hny. split.
    + apply originLine_negative_disc; exact Hny.
    + apply originLine_intersection; exact Hny.
  - apply originLine_vertical.
Qed.

(** Claim C8, counterexample: for the circle of center (5,0) and radius 1
    and the vertical direction (0,1) the radicand is negative and no point
    of the line is on the circle, yet the point (0,0) is returned. *)
Lemma intersectCircleWithOriginLine_vertical_miss :
  intersectCircleWithOriginLine (mkComplex 5 0) 1 (mkComplex 0 1)
  = Some (mkComplex 0 0) /\
  verticalRadTerm (mkComplex 5 0) 1 < 0 /\
  forall W, onOriginLine (mkComplex 0 1) W -> ~ onCircle (mkComplex 5 0) 1 W.
Proof.
  assert (Hneg : verticalRadTerm (mkComplex 5 0) 1 < 0)
    by (unfold verticalRadTerm; simpl; lra).
  assert (Hny : Math_abs (- x (mkComplex 0 1)) <= EPS).
  { simpl. unfold Math_abs. rewrite Ropp_0, Rabs_R0. left. exact EPS_pos. }
  split; [|split].
  - destruct (originLine_vertical (mkComplex 5 0) 1 (mkComplex 0 1) Hny)
      as (V & HV & _ & _ & Hclamp).
    rewrite HV, (Hclamp Hneg). reflexivity.
  - exact Hneg.
  - intros W HW. apply vertical_no_intersection; [exact Hneg|].
    unfold onOriginLine in HW; simpl in HW. lra.
Qed.

(** Claim C9: whenever the reduction loop is left through [break], the
    point [z] it leaves is outside the inversion circle, on the
    non-negative side of the reflection line and has [z.y >= 0], for every
    start point and every iteration bound. *)
Theorem tilingReduce_break_in_fundamental_domain
  (invCen refNrm : Shader.vec2) (invRad : R)
  (nIterations : Z) (z : Shader.vec2) (st : Shader.ReduceState) :
  Shader.tilingReduce invCen refNrm invRad nIterations z = (st, true) ->
  Shader.invRadSq invRad
    <= Shader.normSq (Shader.vsub (Shader.rs_z st) invCen) /\
  0 <= Shader.dot (Shader.rs_z st) refNrm /\
  0 <= y (Shader.rs_z st).
Proof.
  unfold Shader.tilingReduce. intros H.
  exact (ShaderFacts.reduceLoop_break invCen refNrm invRad _ _ _ H).
Qed.

(** ** The claims at concrete inputs *)

Lemma Complex_neq (a b c d : R) :
  a <> c \/ b <> d -> mkComplex a b <> mkComplex c d.
Proof. intros [H|H] E; injection E; intros; contradiction. Qed.

(** The forward mode is defined at the middle point [Q]. *)
Lemma mobius_forward_defined_at_Q (P Q R : Complex) :
  P <> Q -> Q <> R -> P <> R ->
  let M := MobiusMap3PointsTo_m101 P Q R in
  add (MMap.d M) (mul (MMap.c M) Q) <> CMP_ZERO.
Proof.
  intros HPQ HQR HPR.
  pose proof (mobius_radicand_neq_zero P Q R HPQ HQR HPR) as Hw.
  pose proof (first_root_neq_zero _ Hw) as Hd.
  assert (HQP : Q <> P) by congruence.
  pose proof (sub_neq_zero _ _ HQP) as nQP.
  pose proof (sub_neq_zero _ _ HQR) as nQR.
  unfold MobiusMap3PointsTo_m101. fold (mobius_radicand P Q R).
  set (denom := first_root (root (mobius_radicand P Q R) 2)) in *.
  cbv zeta. cbn [MMap.c MMap.d]. rewrite !mulRe_mul, minus_one_as_opp.
  assert (E : add (div (sub (mul (mul P (Copp CMP_ONE)) (sub Q R)) (mul R (sub Q P))) denom)
                  (mul (div (add (sub Q P) (sub Q R)) denom) Q)
              = mul (mul (add CMP_ONE CMP_ONE) (mul (sub Q P) (sub Q R)))
                    (reciprocal denom)) by (field; exact Hd).
  rewrite E. apply mul_neq_zero.
  - repeat apply mul_neq_zero; auto using two_neq_zero.
  - intros E0.
    assert (H1 : mul (reciprocal denom) denom = CMP_ONE) by (field; exact Hd).
    rewrite E0 in H1. injection H1 as H1. lra.
Qed.

Lemma setValues_rejects_invalid_tiling_witness :
  (forall gen, setValuesWith gen 3 3 (1 / 50)
                 (mkMenuState false (mkParams zeroDescriptor 4 5 (1 / 50) tt))
               = (mkMenuState true (mkParams zeroDescriptor 4 5 (1 / 50) tt), None)) /\
  setValues 3 3 (1 / 50)
    (mkMenuState false (mkParams zeroDescriptor 4 5 (1 / 50) tt))
  = (mkMenuState true (mkParams zeroDescriptor 4 5 (1 / 50) tt), None) /\
  (forall p' q' t,
     thrownWith "InvalidTilingError" (generateTilingParams p' q' t) = false).
Proof.
  apply (setValues_rejects_invalid_tiling unit 3 3 (1 / 50)
           (mkMenuState false (mkParams zeroDescriptor 4 5 (1 / 50) tt))).
  lia.
Defined.

Lemma MobiusMap3PointsTo_m101_sends_to_m101_witness :
  let M := MobiusMap3PointsTo_m101 (mkComplex 0 1) (mkComplex 2 0) (mkComplex 1 1) in
  applyMobiusTrans M (mkComplex 0 1) false = mkComplex (-1) 0 /\
  applyMobiusTrans M (mkComplex 2 0) false = mkComplex 0 0 /\
  applyMobiusTrans M (mkComplex 1 1) false = mkComplex 1 0.
Proof.
  apply (MobiusMap3PointsTo_m101_sends_to_m101
           (mkComplex 0 1) (mkComplex 2 0) (mkComplex 1 1));
    apply Complex_neq; lra.
Defined.

Lemma applyMobiusTrans_round_trip_witness :
  let T := MobiusMap3PointsTo_m101 (mkComplex 0 1) (mkComplex 2 0) (mkComplex 1 1) in
  applyMobiusTrans T (applyMobiusTrans T (mkComplex 2 0) false) true
  = mkComplex 2 0.
Proof.
  assert (H1 : mkComplex 0 1 <> mkComplex 2 0) by (apply Complex_neq; lra).
  assert (H2 : mkComplex 2 0 <> mkComplex 1 1) by (apply Complex_neq; lra).
  assert (H3 : mkComplex 0 1 <> mkComplex 1 1) by (apply Complex_neq; lra).
  apply (applyMobiusTrans_round_trip
           (mkComplex 0 1) (mkComplex 2 0) (mkComplex 1 1) (mkComplex 2 0)
           H1 H2 H3).
  apply (mobius_forward_defined_at_Q _ _ _ H1 H2 H3).
Defined.

Lemma MobiusMap3PointsTo_m101_unimodular_witness :
  let M := MobiusMap3PointsTo_m101 (mkComplex 0 1) (mkComplex 2 0) (mkComplex 1 1) in
  sub (mul (MMap.a M) (MMap.d M)) (mul (MMap.b M) (MMap.c M)) = mkComplex 1 0.
Proof.
  apply (MobiusMap3PointsTo_m101_unimodular
           (mkComplex 0 1) (mkComplex 2 0) (mkComplex 1 1));
    apply Complex_neq; lra.
Defined.

Lemma circleFrom3Points_circumcircle_witness :
  let c := circleFrom3Points (mkComplex 0 0) (mkComplex 1 0) (mkComplex 0 1) in
  getNorm (sub (center c) (mkComplex 0 0)) = radius c /\
  getNorm (sub (center c) (mkComplex 1 0)) = radius c /\
  getNorm (sub (center c) (mkComplex 0 1)) = radius c /\
  0 <= radius c /\
  forall (o : Complex) (r : R),
    getNorm (sub o (mkComplex 0 0)) = r -> getNorm (sub o (mkComplex 1 0)) = r ->
    getNorm (sub o (mkComplex 0 1)) = r ->
    o = center c /\ r = radius c.
Proof.
  apply (circleFrom3Points_circumcircle
           (mkComplex 0 0) (mkComplex 1 0) (mkComplex 0 1)).
  unfold det3; simpl; lra.
Defined.

Lemma circleCircleIntersections_externally_tangent_witness :
  exists i,
    circleCircleIntersections (mkComplex 0 0) 1 (mkComplex 3 0) 2 = [i] /\
    i = add (mkComplex 0 0) (mulRe (sub (mkComplex 3 0) (mkComplex 0 0)) (1 / (1 + 2))) /\
    0 <= 1 / (1 + 2) <= 1 /\
    getNorm (sub i (mkComplex 0 0)) = 1.
Proof.
  assert (Hd : getNorm (sub (mkComplex 3 0) (mkComplex 0 0)) = 1 + 2).
  { replace (sub (mkComplex 3 0) (mkComplex 0 0)) with (mkComplex 3 0)
      by (apply Complex_eq; simpl; ring).
    rewrite getNorm_real, Rabs_pos_eq; lra. }
  apply (circleCircleIntersections_externally_tangent
           (mkComplex 0 0) (mkComplex 3 0) 1 2); try lra.
  rewrite Hd. pose proof EPS_small. lra.
Defined.

Lemma intersectCircleWithOriginLine_cases_witness :
  exists V,
    intersectCircleWithOriginLine (mkComplex 2 0) 1 (mkComplex 1 0) = Some V /\
    onOriginLine (mkComplex 1 0) V /\ onCircle (mkComplex 2 0) 1 V /\
    forall W, onOriginLine (mkComplex 1 0) W -> onCircle (mkComplex 2 0) 1 W ->
              getNorm V <= getNorm W.
Proof.
  assert (Hny : EPS < Math_abs (- x (mkComplex 1 0))).
  { simpl. unfold Math_abs. rewrite Rabs_left by lra.
    pose proof EPS_small. lra. }
  apply (proj1 (intersectCircleWithOriginLine_cases
                  (mkComplex 2 0) 1 (mkComplex 1 0)) Hny).
  unfold originLineDisc; simpl. lra.
Defined.

Lemma tilingReduce_break_in_fundamental_domain_witness :
  Shader.invRadSq 1
    <= Shader.normSq (Shader.vsub (mkComplex 0 (1 / 2)) (mkComplex 2 0)) /\
  0 <= Shader.dot (mkComplex 0 (1 / 2)) (mkComplex 0 1) /\
  0 <= y (mkComplex 0 (1 / 2)).
Proof.
  apply (tilingReduce_break_in_fundamental_domain
           (mkComplex 2 0) (mkComplex 0 1) 1 50 (mkComplex 0 (1 / 2))
           (Shader.initialState (mkComplex 0 (1 / 2)))).
  unfold Shader.tilingReduce.
  replace (Z.to_nat 50) with (S 49) by reflexivity.
  apply ShaderFacts.reduceLoop_first_pass.
  unfold Shader.inFundamentalDomain, Shader.invRadSq, Shader.normSq,
    Shader.dot, Shader.vsub, Shader.initialState; simpl.
  repeat split; lra.
Defined.

(* ================================================================== *)
(** * Further properties of the code *)
(* ================================================================== *)

(** ** [class Complex] *)

Lemma getNorm_versor (t : R) : getNorm (versor t) = 1.
Proof.
  unfold getNorm, Math_sqrt, normSq, versor; cbn [x y].
  apply sqrt_unique; [lra|].
  pose proof (sin2_cos2 t) as H. unfold Rsqr in H. lra.
Qed.

Lemma normSq_mul (z w : Complex) : normSq (mul z w) = normSq z * normSq w.
Proof. unfold normSq; cbn [mul x y]. ring. Qed.

(** Property X1: multiplying by [w] and dividing by [w] gives the
    number back, and [w] times its reciprocal is one, for [w] different
    from zero. *)
Theorem div_undoes_mul (z w : Complex) :
  w <> CMP_ZERO ->
  div (mul z w) w = z /\ mul (div z w) w = z /\ mul w (reciprocal w) = CMP_ONE.
Proof. intros Hw. repeat split; field; exact Hw. Qed.

Lemma div_undoes_mul_witness :
  div (mul (mkComplex 1 2) (mkComplex 3 4)) (mkComplex 3 4) = mkComplex 1 2 /\
  mul (div (mkComplex 1 2) (mkComplex 3 4)) (mkComplex 3 4) = mkComplex 1 2 /\
  mul (mkComplex 3 4) (reciprocal (mkComplex 3 4)) = CMP_ONE.
Proof.
  apply (div_undoes_mul (mkComplex 1 2) (mkComplex 3 4)).
  apply Complex_neq. lra.
Defined.

(** Property X2: the norm is multiplicative, a conjugate has the norm
    of its number, and the squared norm is the number times its
    conjugate. *)
Theorem getNorm_multiplicative (z w : Complex) :
  getNorm (mul z w) = getNorm z * getNorm w /\
  getNorm (conj z) = getNorm z /\
  mul z (conj z) = mkComplex (normSq z) 0.
Proof.
  split; [|split].
  - unfold getNorm, Math_sqrt. rewrite normSq_mul.
    apply sqrt_mult; apply normSq_nonneg.
  - unfold getNorm, normSq; cbn [conj x y]. f_equal. ring.
  - apply Complex_eq; unfold normSq; cbn [mul conj x y]; ring.
Qed.

Lemma getNormalized_norm (z : Complex) :
  z <> CMP_ZERO -> getNorm (getNormalized z) = 1.
Proof.
  intros Hz. pose proof (getNorm_pos z Hz) as Hn.
  unfold getNormalized, divRe. rewrite getNorm_mulRe, Rabs_pos_eq.
  - field. lra.
  - left. apply Rdiv_lt_0_compat; lra.
Qed.

(** Property X3: for [z] different from zero, [getNormalized] returns
    a number of norm 1 which, scaled by the norm of [z], is [z]. *)
Theorem getNormalized_unit (z : Complex) :
  z <> CMP_ZERO ->
  getNorm (getNormalized z) = 1 /\
  mulRe (getNormalized z) (getNorm z) = z.
Proof.
  intros Hz. pose proof (getNorm_pos z Hz) as Hn. split.
  - apply getNormalized_norm. exact Hz.
  - apply Complex_eq; cbn [getNormalized divRe mulRe x y]; field; lra.
Qed.

Lemma getNormalized_unit_witness :
  getNorm (getNormalized (mkComplex 3 4)) = 1 /\
  mulRe (getNormalized (mkComplex 3 4)) (getNorm (mkComplex 3 4))
  = mkComplex 3 4.
Proof.
  apply (getNormalized_unit (mkComplex 3 4)). apply Complex_neq. lra.
Defined.

(** Property X4: the complex exponential turns a sum into a product,
    its norm is [e^x], and it is never zero. *)
Theorem exp_homomorphism (z w : Complex) :
  Complex.exp (add z w) = mul (Complex.exp z) (Complex.exp w) /\
  getNorm (Complex.exp z) = Math_exp (x z) /\
  Complex.exp z <> CMP_ZERO.
Proof.
  assert (Hn : getNorm (Complex.exp z) = Math_exp (x z)).
  { unfold Complex.exp. rewrite getNorm_mulRe, getNorm_versor, Rabs_pos_eq.
    - ring.
    - left. apply exp_pos. }
  split; [|split].
  - unfold Complex.exp, Math_exp; apply Complex_eq;
      cbn [add mul mulRe versor x y];
      rewrite exp_plus, ?cos_plus, ?sin_plus; ring.
  - exact Hn.
  - intros E. apply getNorm_zero_iff in E. rewrite Hn in E.
    pose proof (exp_pos (x z)). unfold Math_exp in E. lra.
Qed.

Lemma same_angle_multiples (a b : R) :
  cos a = cos b -> sin a = sin b ->
  forall n : nat, cos (INR n * a) = cos (INR n * b) /\
                  sin (INR n * a) = sin (INR n * b).
Proof.
  intros Hc Hs. induction n as [|n [IHc IHs]].
  - simpl. rewrite !Rmult_0_l. split; reflexivity.
  - rewrite S_INR.
    replace ((INR n + 1) * a) with (INR n * a + a) by ring.
    replace ((INR n + 1) * b) with (INR n * b + b) by ring.
    rewrite !cos_plus, !sin_plus, IHc, IHs, Hc, Hs. split; reflexivity.
Qed.

Lemma Math_pow_pos (b e : R) : 0 < b -> Math_pow b e = Rpower b e /\ 0 < Math_pow b e.
Proof.
  intros Hb. unfold Math_pow. destruct (Req_dec_T b 0) as [E|E]; [lra|].
  split; [reflexivity|]. unfold Rpower. apply exp_pos.
Qed.

(** Property X5: for [z] different from zero and [n >= 1], [root(n)]
    returns exactly [n] numbers; each of them has norm [|z|^(1/n)] and is
    sent back to [z] by [power(n)]. *)
Theorem root_power_round_trip (z : Complex) (n k : nat) :
  z <> CMP_ZERO -> (k < n)%nat ->
  List.length (root z n) = n /\
  exists w,
    nth_error (root z n) k = Some w /\
    getNorm w = Math_pow (getNorm z) (1 / INR n) /\
    Complex.power w (INR n) = z.
Proof.
  intros Hz Hk. split; [apply root_length|].
  pose proof (getNorm_pos z Hz) as Hr.
  assert (Hn : 0 < INR n) by (apply lt_0_INR; lia).
  destruct (Math_pow_pos (getNorm z) (1 / INR n) Hr) as [Hrho Hrho0].
  set (rho := Math_pow (getNorm z) (1 / INR n)) in *.
  set (phi := Math_atan2 (y z) (x z)).
  set (theta := (phi + 2 * INR k * PI) / INR n).
  exists (mulRe (versor theta) rho).
  assert (Hnorm : getNorm (mulRe (versor theta) rho) = rho).
  { rewrite getNorm_mulRe, getNorm_versor, Rabs_pos_eq; lra. }
  split; [|split].
  - unfold root. rewrite nth_error_map, nth_error_seq.
    rewrite (proj2 (Nat.ltb_lt k n) Hk). reflexivity.
  - exact Hnorm.
  - unfold Complex.power. rewrite Hnorm.
    assert (Hw : x (mulRe (versor theta) rho) * x (mulRe (versor theta) rho)
                 + y (mulRe (versor theta) rho) * y (mulRe (versor theta) rho) <> 0).
    { change (normSq (mulRe (versor theta) rho) <> 0).
      rewrite <- getNorm_sq, Hnorm. nra. }
    destruct (Math_atan2_polar _ _ Hw) as [Hc Hs].
    change (sqrt (x (mulRe (versor theta) rho) * x (mulRe (versor theta) rho)
                  + y (mulRe (versor theta) rho) * y (mulRe (versor theta) rho)))
      with (getNorm (mulRe (versor theta) rho)) in Hc, Hs.
    rewrite Hnorm in Hc, Hs. cbn [mulRe versor x y] in Hc, Hs.
    set (psi := Math_atan2 (sin theta * rho) (cos theta * rho)) in *.
    cbn [mulRe versor x y]. fold psi.
    assert (Hcos : cos psi = cos theta) by nra.
    assert (Hsin : sin psi = sin theta) by nra.
    destruct (same_angle_multiples psi theta Hcos Hsin n) as [Hcn Hsn].
    assert (Hang : INR n * theta = phi + 2 * INR k * PI)
      by (unfold theta; field; lra).
    rewrite Hang, cos_period in Hcn. rewrite Hang, sin_period in Hsn.
    assert (Hpow : Math_pow rho (INR n) = getNorm z).
    { destruct (Math_pow_pos rho (INR n) Hrho0) as [-> _].
      rewrite Hrho, Rpower_mult.
      replace (1 / INR n * INR n) with 1 by (field; lra).
      apply Rpower_1. exact Hr. }
    pose proof (proj1 (Complex_neq_normSq z) Hz) as Hzn. unfold normSq in Hzn.
    destruct (Math_atan2_polar _ _ Hzn) as [Hzc Hzs]. fold phi in Hzc, Hzs.
    change (sqrt (x z * x z + y z * y z)) with (getNorm z) in Hzc, Hzs.
    apply Complex_eq; cbn [mulRe versor x y]; rewrite Hpow.
    + rewrite Hcn. exact Hzc.
    + rewrite Hsn. exact Hzs.
Qed.

Lemma root_power_round_trip_witness :
  List.length (root (mkComplex 0 8) 3) = 3%nat /\
  exists w,
    nth_error (root (mkComplex 0 8) 3) 1 = Some w /\
    getNorm w = Math_pow (getNorm (mkComplex 0 8)) (1 / INR 3) /\
    Complex.power w (INR 3) = mkComplex 0 8.
Proof.
  apply (root_power_round_trip (mkComplex 0 8) 3 1).
  - apply Complex_neq. lra.
  - lia.
Defined.

(** Property X6: for [z] different from zero the two numbers returned
    by [root(2)] are opposite, and both square to [z]. *)
Theorem root_2_opposite_roots (z : Complex) :
  z <> CMP_ZERO ->
  exists r0 r1,
    root z 2 = [r0; r1] /\ r1 = mulRe r0 (-1) /\
    mul r0 r0 = z /\ mul r1 r1 = z.
Proof.
  intros Hz. pose proof (first_root_square z Hz) as Hsq.
  unfold root, first_root in *. cbn [seq map hd INR] in *.
  eexists. eexists. split; [reflexivity|].
  set (rho := Math_pow (getNorm z) (1 / (1 + 1))) in *.
  set (phi := Math_atan2 (y z) (x z)) in *.
  assert (E : mulRe (versor ((phi + 2 * 1 * PI) / (1 + 1))) rho
              = mulRe (mulRe (versor ((phi + 2 * 0 * PI) / (1 + 1))) rho) (-1)).
  { replace ((phi + 2 * 1 * PI) / (1 + 1)) with ((phi + 2 * 0 * PI) / (1 + 1) + PI)
      by field.
    apply Complex_eq; cbn [mulRe versor x y]; rewrite ?neg_cos, ?neg_sin; ring. }
  split; [exact E|]. split; [exact Hsq|].
  rewrite E. etransitivity; [|exact Hsq].
  apply Complex_eq; cbn [mul mulRe x y]; ring.
Qed.

Lemma root_2_opposite_roots_witness :
  exists r0 r1,
    root (mkComplex (-4) 0) 2 = [r0; r1] /\ r1 = mulRe r0 (-1) /\
    mul r0 r0 = mkComplex (-4) 0 /\ mul r1 r1 = mkComplex (-4) 0.
Proof.
  apply (root_2_opposite_roots (mkComplex (-4) 0)). apply Complex_neq. lra.
Defined.

(** ** The projections [modelMaps] *)

Lemma normSq_divRe (z : Complex) (k : R) :
  k <> 0 -> normSq (divRe z k) = normSq z / (k * k).
Proof. intros Hk. unfold normSq; cbn [divRe mulRe x y]. field. exact Hk. Qed.

Lemma normSq_mulRe (z : Complex) (k : R) :
  normSq (mulRe z k) = normSq z * (k * k).
Proof. unfold normSq; cbn [mulRe x y]. ring. Qed.

Lemma normSq_div (a b : Complex) :
  b <> CMP_ZERO -> normSq (div a b) = normSq a / normSq b.
Proof.
  intros Hb. apply Complex_neq_normSq in Hb.
  unfold div. rewrite normSq_mul. unfold reciprocal.
  rewrite normSq_divRe by exact Hb.
  replace (normSq (conj b)) with (normSq b)
    by (unfold normSq; cbn [conj x y]; ring).
  field. exact Hb.
Qed.

Lemma sqrt_one_plus (n : R) :
  0 <= n -> 1 <= Math_sqrt (1 + n) /\ Math_sqrt (1 + n) * Math_sqrt (1 + n) = 1 + n.
Proof.
  intros Hn. unfold Math_sqrt. split.
  - rewrite <- sqrt_1 at 1. apply sqrt_le_1_alt. lra.
  - apply sqrt_sqrt. lra.
Qed.

(** Property X7: the Gans entry (index 4) and the equal-area entry
    (index 6) of [modelMaps] send every point of the plane strictly inside
    the unit disk, so the test [diskPos.normSq() < 1] of the mouse handler
    always passes for these two models. *)
Theorem modelMaps_gans_equal_area_in_disk :
  exists gans equalArea,
    nth_error modelMaps 4 = Some gans /\
    nth_error modelMaps 6 = Some equalArea /\
    forall z, normSq (gans z) < 1 /\ normSq (equalArea z) < 1.
Proof.
  eexists. eexists. split; [reflexivity|]. split; [reflexivity|].
  intros z. cbv beta zeta. split.
  - set (w := mulRe z gansScale).
    destruct (sqrt_one_plus (normSq w) (normSq_nonneg w)) as [H1 H2].
    set (s := Math_sqrt (1 + normSq w)) in *.
    rewrite normSq_divRe by lra.
    apply Rmult_lt_reg_r with (r := (1 + s) * (1 + s)); [nra|].
    unfold Rdiv. rewrite Rmult_assoc, Rinv_l by nra. nra.
  - set (w := mulRe z mapScale).
    destruct (sqrt_one_plus (normSq w) (normSq_nonneg w)) as [H1 H2].
    set (s := Math_sqrt (1 + normSq w)) in *.
    rewrite normSq_divRe by lra.
    apply Rmult_lt_reg_r with (r := s * s); [nra|].
    unfold Rdiv. rewrite Rmult_assoc, Rinv_l by nra. nra.
Qed.

(** Property X8: the upper half-plane entry (index 1) sends every
    point with [y > -1] (the half-plane above the line the entry shifts to
    the real axis) strictly inside the unit disk. *)
Theorem modelMaps_half_plane (z : Complex) :
  -1 < y z ->
  exists halfPlane,
    nth_error modelMaps 1 = Some halfPlane /\
    normSq (halfPlane z) < 1.
Proof.
  intros Hy. eexists. split; [reflexivity|]. cbv beta zeta.
  set (w := mkComplex (x z) (y z + 1)).
  assert (Hden : add w CMP_I <> CMP_ZERO).
  { apply Complex_neq_normSq. unfold normSq, w; cbn [add CMP_I x y]. nra. }
  rewrite normSq_div by exact Hden.
  pose proof (proj1 (Complex_neq_normSq _) Hden) as Hn.
  pose proof (normSq_nonneg (add w CMP_I)) as Hn0.
  assert (Hdiff : normSq (add w CMP_I) - normSq (sub w CMP_I) = 4 * (y z + 1))
    by (unfold normSq, w; cbn [add sub CMP_I x y]; ring).
  apply Rmult_lt_reg_r with (r := normSq (add w CMP_I)); [lra|].
  unfold Rdiv. rewrite Rmult_assoc, Rinv_l by lra. lra.
Qed.

Lemma modelMaps_half_plane_witness :
  exists halfPlane,
    nth_error modelMaps 1 = Some halfPlane /\
    normSq (halfPlane (mkComplex 2 3)) < 1.
Proof.
  apply (modelMaps_half_plane (mkComplex 2 3)). simpl. lra.
Defined.

(** Property X9: the Beltrami-Klein entry (index 2) moves a point of
    the closed unit disk toward the center: the image has a norm at most
    that of the point, hence stays in the closed disk. *)
Theorem modelMaps_klein_contracts (z : Complex) :
  normSq z <= 1 ->
  exists klein,
    nth_error modelMaps 2 = Some klein /\
    normSq (klein z) <= normSq z /\ normSq (klein z) <= 1.
Proof.
  intros Hz. eexists. split; [reflexivity|]. cbv beta.
  pose proof (normSq_nonneg z) as Hn.
  assert (Hs : 0 <= Math_sqrt (1 - normSq z)) by apply sqrt_pos.
  set (s := Math_sqrt (1 - normSq z)) in *.
  rewrite normSq_divRe by lra.
  assert (H : normSq z / ((1 + s) * (1 + s)) <= normSq z).
  { apply Rmult_le_reg_r with (r := (1 + s) * (1 + s)); [nra|].
    unfold Rdiv. rewrite Rmult_assoc, Rinv_l by nra. nra. }
  split; lra.
Qed.

Lemma modelMaps_klein_contracts_witness :
  exists klein,
    nth_error modelMaps 2 = Some klein /\
    normSq (klein (mkComplex (1 / 2) (1 / 2))) <= normSq (mkComplex (1 / 2) (1 / 2)) /\
    normSq (klein (mkComplex (1 / 2) (1 / 2))) <= 1.
Proof.
  apply (modelMaps_klein_contracts (mkComplex (1 / 2) (1 / 2))).
  unfold normSq; simpl. lra.
Defined.

(** ** The shader's copies of the complex utilities *)

Module ShaderMapsFacts.
Import ShaderMaps.

Lemma vdiv_divRe (v : Shader.vec2) (k : R) : Shader.vdiv v k = divRe v k.
Proof. apply Complex_eq; cbn [Shader.vdiv divRe mulRe x y]; unfold Rdiv; ring. Qed.

Lemma vscale_mulRe (k : R) (v : Shader.vec2) : Shader.vscale k v = mulRe v k.
Proof. apply Complex_eq; cbn [Shader.vscale mulRe x y]; ring. Qed.

Lemma cinv_reciprocal (z : Shader.vec2) : cinv z = reciprocal z.
Proof. unfold cinv, reciprocal. rewrite vdiv_divRe. reflexivity. Qed.

Lemma cdiv_div (a b : Shader.vec2) : cdiv a b = div a b.
Proof. unfold cdiv, div. rewrite cinv_reciprocal. reflexivity. Qed.

Lemma cexp_exp (z : Shader.vec2) : cexp z = Complex.exp z.
Proof. unfold cexp, Complex.exp. rewrite vscale_mulRe. reflexivity. Qed.

Lemma ctanh_tanh (z : Shader.vec2) : ctanh z = Complex.tanh z.
Proof.
  unfold ctanh, Complex.tanh. cbv zeta.
  rewrite cdiv_div, cexp_exp, vscale_mulRe. reflexivity.
Qed.

Lemma length_getNorm (v : Shader.vec2) : length v = getNorm v.
Proof. reflexivity. Qed.

(** Property X10: for each of the eight model indices the shader's
    [remapToDisk] and the entry of the JavaScript table [modelMaps] compute
    the same point, so the mouse position is mapped as the picture is. *)
Theorem remapToDisk_agrees_with_modelMaps (modelIdx : Z) (z : Complex) :
  (0 <= modelIdx <= 7)%Z ->
  exists modelMap,
    nth_error modelMaps (Z.to_nat modelIdx) = Some modelMap /\
    modelMap z = remapToDisk modelIdx z.
Proof.
  intros H.
  assert (Hcases : modelIdx = 0%Z \/ modelIdx = 1%Z \/ modelIdx = 2%Z \/
                   modelIdx = 3%Z \/ modelIdx = 4%Z \/ modelIdx = 5%Z \/
                   modelIdx = 6%Z \/ modelIdx = 7%Z) by lia.
  destruct Hcases as [->|[->|[->|[->|[->|[->|[->| ->]]]]]]];
    (eexists; split; [reflexivity|]); cbv beta zeta; unfold remapToDisk;
    cbv zeta.
  - reflexivity.
  - rewrite cdiv_div. reflexivity.
  - rewrite vdiv_divRe. reflexivity.
  - rewrite cinv_reciprocal, vscale_mulRe. reflexivity.
  - rewrite vdiv_divRe, vscale_mulRe. reflexivity.
  - unfold normalize. rewrite !vscale_mulRe, vdiv_divRe.
    change (length (mulRe z MAP_SCALE)) with (getNorm (mulRe z MAP_SCALE)).
    unfold getNormalized.
    replace (1 / 2 * getNorm (mulRe z MAP_SCALE))
      with (getNorm (mulRe z MAP_SCALE) * (1 / 2)) by ring.
    reflexivity.
  - rewrite vdiv_divRe, vscale_mulRe. reflexivity.
  - rewrite ctanh_tanh. reflexivity.
Qed.

Lemma remapToDisk_agrees_with_modelMaps_witness :
  exists modelMap,
    nth_error modelMaps (Z.to_nat 4) = Some modelMap /\
    modelMap (mkComplex 1 2) = remapToDisk 4 (mkComplex 1 2).
Proof.
  apply (remapToDisk_agrees_with_modelMaps 4 (mkComplex 1 2)). lia.
Defined.

Lemma shift_as_div (z a : Shader.vec2) :
  shift z a = div (sub z a) (sub CMP_ONE (mul z (conj a))).
Proof.
  unfold shift. rewrite cdiv_div.
  replace (mkComplex (x a * 1) (y a * -1)) with (conj a)
    by (apply Complex_eq; cbn [conj x y]; ring).
  reflexivity.
Qed.

Lemma shift_denominator (z a : Shader.vec2) :
  normSq a < 1 -> normSq z <= 1 ->
  0 < normSq (sub CMP_ONE (mul z (conj a))) /\
  normSq (sub CMP_ONE (mul z (conj a))) - normSq (sub z a)
  = (1 - normSq z) * (1 - normSq a).
Proof.
  intros Ha Hz.
  assert (E : normSq (sub CMP_ONE (mul z (conj a))) - normSq (sub z a)
              = (1 - normSq z) * (1 - normSq a))
    by (unfold normSq; cbn [sub mul conj CMP_ONE x y]; ring).
  split; [|exact E].
  pose proof (normSq_nonneg (sub z a)) as H0.
  pose proof (normSq_nonneg a) as H1.
  pose proof (normSq_nonneg z) as H2.
  destruct (Req_dec_T (normSq z) 1) as [E1|E1].
  - (* |z| = 1: then z <> a *)
    assert (Hne : 0 < normSq (sub z a)).
    { destruct (Req_dec_T (normSq (sub z a)) 0) as [E0|E0]; [|lra].
      exfalso. unfold normSq in E0, E1, Ha; cbn [sub x y] in E0.
      destruct (Rplus_sqr_eq_0 _ _ E0) as [Ex Ey].
      assert (Hx : x z = x a) by lra. assert (Hy : y z = y a) by lra.
      rewrite Hx, Hy in E1. lra. }
    nra.
  - nra.
Qed.

(** Property X11: for a center [a] strictly inside the unit disk,
    [shift] maps the closed unit disk into itself and the open disk into
    the open disk, sends [a] to the origin, and [shift(., -a)] undoes it. *)
Theorem shift_preserves_disk (z a : Shader.vec2) :
  Shader.normSq a < 1 -> Shader.normSq z <= 1 ->
  Shader.normSq (shift z a) <= 1 /\
  (Shader.normSq z < 1 -> Shader.normSq (shift z a) < 1) /\
  shift a a = mkComplex 0 0 /\
  shift (shift z a) (mulRe a (-1)) = z.
Proof.
  change Shader.normSq with normSq. unfold Shader.vec2 in *. intros Ha Hz.
  destruct (shift_denominator z a Ha Hz) as [Hpos Hdiff].
  assert (Hden : sub CMP_ONE (mul z (conj a)) <> CMP_ZERO)
    by (apply Complex_neq_normSq; lra).
  pose proof (normSq_nonneg a) as H1.
  pose proof (normSq_nonneg z) as H2.
  split; [|split; [|split]].
  - rewrite shift_as_div, normSq_div by exact Hden.
    apply Rmult_le_reg_r with (r := normSq (sub CMP_ONE (mul z (conj a))));
      [exact Hpos|].
    unfold Rdiv. rewrite Rmult_assoc, Rinv_l by lra. nra.
  - intros Hz1. rewrite shift_as_div, normSq_div by exact Hden.
    apply Rmult_lt_reg_r with (r := normSq (sub CMP_ONE (mul z (conj a))));
      [exact Hpos|].
    unfold Rdiv. rewrite Rmult_assoc, Rinv_l by lra. nra.
  - rewrite shift_as_div. apply Complex_eq; cbn [div mul sub x y]; ring.
  - rewrite !shift_as_div.
    assert (Hone : sub CMP_ONE (mul a (conj a)) <> CMP_ZERO).
    { apply Complex_neq_normSq. unfold normSq in *; cbn [sub mul conj CMP_ONE x y].
      nra. }
    replace (conj (mulRe a (-1))) with (Copp (conj a))
      by (apply Complex_eq; cbn [Copp conj mulRe x y]; ring).
    replace (mulRe a (-1)) with (Copp a) by reflexivity.
    transitivity (div (mul z (sub CMP_ONE (mul a (conj a))))
                      (sub CMP_ONE (mul a (conj a)))).
    + field. split; [|exact Hden].
      replace (sub (sub CMP_ONE (mul z (conj a))) (mul (sub z a) (Copp (conj a))))
        with (sub CMP_ONE (mul a (conj a))) by ring.
      exact Hone.
    + field. exact Hone.
Qed.

Lemma shift_preserves_disk_witness :
  Shader.normSq (shift (mkComplex (1 / 2) 0) (mkComplex 0 (1 / 2))) <= 1 /\
  (Shader.normSq (mkComplex (1 / 2) 0) < 1 ->
   Shader.normSq (shift (mkComplex (1 / 2) 0) (mkComplex 0 (1 / 2))) < 1) /\
  shift (mkComplex 0 (1 / 2)) (mkComplex 0 (1 / 2)) = mkComplex 0 0 /\
  shift (shift (mkComplex (1 / 2) 0) (mkComplex 0 (1 / 2)))
        (mulRe (mkComplex 0 (1 / 2)) (-1)) = mkComplex (1 / 2) 0.
Proof.
  apply (shift_preserves_disk (mkComplex (1 / 2) 0) (mkComplex 0 (1 / 2)));
    unfold Shader.normSq, Shader.dot; simpl; lra.
Defined.

End ShaderMapsFacts.

(** ** [circleCircleIntersections] *)

Lemma orb3_false (a b c : bool) :
  a || b || c = false -> a = false /\ b = false /\ c = false.
Proof. destruct a, b, c; simpl; intros H; try discriminate; auto. Qed.

(** Property X12: every point returned by [circleCircleIntersections]
    lies on both circles. *)
Theorem circleCircleIntersections_sound
  (c1 : Complex) (r1 : R) (c2 : Complex) (r2 : R) (P : Complex) :
  In P (circleCircleIntersections c1 r1 c2 r2) ->
  onCircle c1 r1 P /\ onCircle c2 r2 P.
Proof.
  unfold circleCircleIntersections.
  set (dVec := sub c2 c1). set (d := getNorm dVec).
  destruct (Rgtb d (r1 + r2) || Rltb d (Math_abs (r1 - r2)) || Rltb d EPS)
    eqn:Hguard; [intros []|].
  apply orb3_false in Hguard. destruct Hguard as (G1 & G2 & G3).
  apply Rltb_spec_false in G1, G2, G3. pose proof EPS_pos as Hp.
  assert (Hd : 0 < d) by lra.
  assert (Hdd : d * d = x dVec * x dVec + y dVec * y dVec)
    by (apply getNorm_sq).
  assert (Habs : r1 - r2 <= d /\ r2 - r1 <= d).
  { unfold Math_abs, Rabs in G2. destruct (Rcase_abs (r1 - r2)); lra. }
  destruct Habs as [Ha1 Ha2].
  set (xm := (r1 * r1 - r2 * r2 + d * d) / (2 * d)).
  assert (Hxm : 2 * d * xm = r1 * r1 - r2 * r2 + d * d)
    by (unfold xm; field; lra).
  assert (Hfac : 4 * (d * d) * (r1 * r1 - xm * xm)
                 = ((r1 + r2 - d) * (d + r2 - r1)) * ((d + r1 - r2) * (d + r1 + r2))).
  { transitivity (4 * (d * d) * (r1 * r1) - (2 * d * xm) * (2 * d * xm)); [ring|].
    rewrite Hxm. ring. }
  assert (Hh2 : 0 <= r1 * r1 - xm * xm).
  { assert (H1 : 0 <= (r1 + r2 - d) * (d + r2 - r1))
      by (apply Rmult_le_pos; lra).
    assert (H2 : 0 <= (d + r1 - r2) * (d + r1 + r2))
      by (apply Rmult_le_pos; lra).
    pose proof (Rmult_le_pos _ _ H1 H2) as H3. rewrite <- Hfac in H3.
    assert (0 < 4 * (d * d)) by nra.
    destruct (Rle_dec 0 (r1 * r1 - xm * xm)) as [Hle|Hn]; [exact Hle|].
    exfalso. assert (r1 * r1 - xm * xm < 0) by lra. nra. }
  rewrite (Rltb_false _ _ Hh2).
  assert (Hh : Math_sqrt (r1 * r1 - xm * xm) * Math_sqrt (r1 * r1 - xm * xm)
               = r1 * r1 - xm * xm) by (apply sqrt_sqrt; exact Hh2).
  set (h := Math_sqrt (r1 * r1 - xm * xm)) in *.
  assert (Hperp : getNorm (mkComplex (- y dVec) (x dVec)) = d).
  { unfold d, getNorm. f_equal. unfold normSq; cbn [x y]. ring. }
  unfold getNormalized. rewrite Hperp.
  set (i1 := add _ (mulRe (divRe _ d) h)).
  set (i2 := sub _ (mulRe (divRe _ d) h)).
  assert (Hc2 : x c2 = x c1 + x dVec /\ y c2 = y c1 + y dVec)
    by (unfold dVec; cbn [sub x y]; split; ring).
  destruct Hc2 as [Hc2x Hc2y].
  assert (H1 : onCircle c1 r1 i1 /\ onCircle c2 r2 i1).
  { unfold onCircle, normSq, i1; cbn [add sub mulRe divRe x y].
    rewrite Hc2x, Hc2y. split.
    - transitivity ((xm * xm + h * h) * (x dVec * x dVec + y dVec * y dVec) / (d * d));
        [field; lra|]. rewrite <- Hdd, Hh. field. lra.
    - transitivity (((xm * xm + h * h) * (x dVec * x dVec + y dVec * y dVec)
                     - 2 * d * xm * (x dVec * x dVec + y dVec * y dVec)) / (d * d)
                    + (x dVec * x dVec + y dVec * y dVec));
        [field; lra|]. rewrite <- Hdd, Hh, Hxm. field. lra. }
  assert (H2 : onCircle c1 r1 i2 /\ onCircle c2 r2 i2).
  { unfold onCircle, normSq, i2; cbn [add sub mulRe divRe x y].
    rewrite Hc2x, Hc2y. split.
    - transitivity ((xm * xm + h * h) * (x dVec * x dVec + y dVec * y dVec) / (d * d));
        [field; lra|]. rewrite <- Hdd, Hh. field. lra.
    - transitivity (((xm * xm + h * h) * (x dVec * x dVec + y dVec * y dVec)
                     - 2 * d * xm * (x dVec * x dVec + y dVec * y dVec)) / (d * d)
                    + (x dVec * x dVec + y dVec * y dVec));
        [field; lra|]. rewrite <- Hdd, Hh, Hxm. field. lra. }
  destruct (Rltb h EPS); simpl; intros [<-|[<-|[]]] || intros [<-|[]]; assumption.
Qed.

Lemma circleCircleIntersections_sound_witness :
  onCircle (mkComplex 0 0) 1
    (add (mkComplex 0 0) (mulRe (sub (mkComplex 3 0) (mkComplex 0 0)) (1 / (1 + 2)))) /\
  onCircle (mkComplex 3 0) 2
    (add (mkComplex 0 0) (mulRe (sub (mkComplex 3 0) (mkComplex 0 0)) (1 / (1 + 2)))).
Proof.
  apply (circleCircleIntersections_sound (mkComplex 0 0) 1 (mkComplex 3 0) 2).
  assert (Hd : getNorm (sub (mkComplex 3 0) (mkComplex 0 0)) = 1 + 2).
  { replace (sub (mkComplex 3 0) (mkComplex 0 0)) with (mkComplex 3 0)
      by (apply Complex_eq; simpl; ring).
    rewrite getNorm_real, Rabs_pos_eq; lra. }
  rewrite tangent_circles_meet_once; [left; reflexivity | lra | lra | exact Hd |].
  rewrite Hd. pose proof EPS_small. lra.
Defined.

(** Property X13: [circleCircleIntersections] never returns more than
    two points, and for two circles with the same center (identical
    circles included) it returns none. *)
Theorem circleCircleIntersections_count
  (c1 : Complex) (r1 : R) (c2 : Complex) (r2 : R) :
  (List.length (circleCircleIntersections c1 r1 c2 r2) <= 2)%nat /\
  circleCircleIntersections c1 r1 c1 r2 = [].
Proof.
  split; [|apply concentric_circles_no_intersection].
  unfold circleCircleIntersections.
  destruct (_ || _ || _); [simpl; lia|].
  cbv zeta. destruct (Rltb (Math_sqrt _) EPS); simpl; lia.
Qed.

(** ** [isInsideTriangle] *)

Lemma Rgeb_spec (a b : R) : Rgeb a b = true <-> b <= a.
Proof.
  unfold Rgeb. destruct (Rle_dec b a); split; intros; auto; discriminate.
Qed.

(** The denominator of the barycentric coordinates. *)
Lemma isInsideTriangle_degenerate (p a b c : Complex) :
  Math_abs ((y b - y c) * (x a - x c) + (x c - x b) * (y a - y c)) < EPS ->
  isInsideTriangle p a b c = false.
Proof.
  intros H. unfold isInsideTriangle. rewrite (Rltb_true _ _ H). reflexivity.
Qed.

(** Property X14: for a triangle that is not degenerate (the
    denominator is at least the threshold in absolute value)
    [isInsideTriangle] answers [true] exactly for the points
    [alpha*a + beta*b + gamma*c] with non-negative weights of sum 1, the
    boundary included; for a degenerate triangle it answers [false] for
    every point. *)
Theorem isInsideTriangle_barycentric (p a b c : Complex) :
  let denominator :=
    (y b - y c) * (x a - x c) + (x c - x b) * (y a - y c) in
  (EPS <= Math_abs denominator ->
     (isInsideTriangle p a b c = true <->
      exists alpha beta gamma,
        0 <= alpha /\ 0 <= beta /\ 0 <= gamma /\ alpha + beta + gamma = 1 /\
        x p = alpha * x a + beta * x b + gamma * x c /\
        y p = alpha * y a + beta * y b + gamma * y c)) /\
  (Math_abs denominator < EPS -> isInsideTriangle p a b c = false).
Proof.
  intros den. split; [|apply isInsideTriangle_degenerate].
  intros Hden. pose proof EPS_pos as Hp.
  assert (Hne : den <> 0).
  { intros E. rewrite E in Hden. unfold Math_abs in Hden.
    rewrite Rabs_R0 in Hden. lra. }
  unfold isInsideTriangle. fold den. rewrite (Rltb_false _ _ Hden).
  set (al := ((y b - y c) * (x p - x c) + (x c - x b) * (y p - y c)) / den).
  set (be := ((y c - y a) * (x p - x c) + (x a - x c) * (y p - y c)) / den).
  rewrite !andb_true_iff, !Rgeb_spec. split.
  - intros [[Ha Hb] Hc]. exists al, be, (1 - al - be).
    repeat split; try assumption; try ring.
    + unfold al, be, den. field. exact Hne.
    + unfold al, be, den. field. exact Hne.
  - intros (a' & b' & c' & Ha & Hb & Hc & Hsum & Hx & Hy).
    assert (Ec : c' = 1 - a' - b') by lra. subst c'.
    assert (Eal : al = a').
    { unfold al. rewrite Hx, Hy. unfold den. field. exact Hne. }
    assert (Ebe : be = b').
    { unfold be. rewrite Hx, Hy. unfold den. field. exact Hne. }
    rewrite Eal, Ebe. repeat split; lra.
Qed.

Lemma isInsideTriangle_barycentric_witness :
  isInsideTriangle (mkComplex (1 / 3) (1 / 3))
    (mkComplex 0 0) (mkComplex 1 0) (mkComplex 0 1) = true.
Proof.
  assert (Hden : EPS <= Math_abs ((0 - 1) * (0 - 0) + (0 - 1) * (0 - 1))).
  { unfold Math_abs. rewrite Rabs_pos_eq by lra. pose proof EPS_small. lra. }
  apply (proj1 (isInsideTriangle_barycentric (mkComplex (1 / 3) (1 / 3))
                  (mkComplex 0 0) (mkComplex 1 0) (mkComplex 0 1)) Hden).
  exists (1 / 3), (1 / 3), (1 / 3). simpl. repeat split; lra.
Defined.

(** ** The circle through three points, again *)

Lemma det3_swap (p1 p2 p3 : Complex) : det3 p1 p3 p2 = - det3 p1 p2 p3.
Proof. unfold det3. ring. Qed.

Lemma det3_rotate (p1 p2 p3 : Complex) : det3 p2 p3 p1 = det3 p1 p2 p3.
Proof. unfold det3. ring. Qed.

(** Property X15: for three points that are not collinear the circle
    returned by [circleFrom3Points] does not depend on the order in which
    the points are given. *)
Theorem circleFrom3Points_order (p1 p2 p3 : Complex) :
  det3 p1 p2 p3 <> 0 ->
  circleFrom3Points p1 p3 p2 = circleFrom3Points p1 p2 p3 /\
  circleFrom3Points p2 p3 p1 = circleFrom3Points p1 p2 p3.
Proof.
  intros Hdet.
  assert (Hs : det3 p1 p3 p2 <> 0) by (rewrite det3_swap; lra).
  assert (Hr : det3 p2 p3 p1 <> 0) by (rewrite det3_rotate; exact Hdet).
  destruct (circleFrom3Points_normSq p1 p3 p2 Hs) as [S3 S2].
  destruct (circleFrom3Points_normSq p2 p3 p1 Hr) as [R3 R1].
  cbv zeta in S3, S2, R3, R1.
  assert (Es : center (circleFrom3Points p1 p3 p2)
               = center (circleFrom3Points p1 p2 p3))
    by (apply circumcenter_unique; assumption).
  assert (Er : center (circleFrom3Points p2 p3 p1)
               = center (circleFrom3Points p1 p2 p3)).
  { apply circumcenter_unique; [exact Hdet | | ].
    - symmetry. exact R1.
    - rewrite R3. symmetry. exact R1. }
  split.
  - destruct (circleFrom3Points p1 p3 p2) as [o r] eqn:E1.
    destruct (circleFrom3Points p1 p2 p3) as [o' r'] eqn:E2.
    cbn [center] in Es. subst o'. f_equal.
    pose proof (circleFrom3Points_radius p1 p3 p2) as Q1.
    pose proof (circleFrom3Points_radius p1 p2 p3) as Q2.
    rewrite E1 in Q1. rewrite E2 in Q2. cbn [center radius] in Q1, Q2.
    rewrite Q1, Q2. reflexivity.
  - pose proof (circleFrom3Points_radius p2 p3 p1) as Q1.
    pose proof (circleFrom3Points_radius p1 p2 p3) as Q2.
    rewrite Er in Q1.
    destruct (circleFrom3Points_normSq p1 p2 p3 Hdet) as [T2 _].
    cbv zeta in T2.
    destruct (circleFrom3Points p2 p3 p1) as [o r] eqn:E1.
    destruct (circleFrom3Points p1 p2 p3) as [o' r'] eqn:E2.
    cbn [center radius] in *. subst o. f_equal.
    rewrite Q1, Q2. unfold getNorm. f_equal. exact T2.
Qed.

Lemma circleFrom3Points_order_witness :
  circleFrom3Points (mkComplex 0 0) (mkComplex 0 1) (mkComplex 1 0)
  = circleFrom3Points (mkComplex 0 0) (mkComplex 1 0) (mkComplex 0 1) /\
  circleFrom3Points (mkComplex 1 0) (mkComplex 0 1) (mkComplex 0 0)
  = circleFrom3Points (mkComplex 0 0) (mkComplex 1 0) (mkComplex 0 1).
Proof.
  apply (circleFrom3Points_order (mkComplex 0 0) (mkComplex 1 0) (mkComplex 0 1)).
  unfold det3; simpl; lra.
Defined.

(** ** [ornament] *)

(** Property X16: for a non-negative [len_rat] the point returned by
    [ornament] is at distance [len_rat * |D|] from the origin; with
    [angle_rat = 0] and [D] different from zero it is [D] scaled by
    [len_rat]. *)
Theorem ornament_norm (D refDir : Complex) (len_rat angle_rat : R) :
  0 <= len_rat ->
  getNorm (ornament D refDir len_rat angle_rat) = len_rat * getNorm D /\
  (D <> CMP_ZERO -> ornament D refDir len_rat 0 = mulRe D len_rat).
Proof.
  intros Hl. split.
  - unfold ornament. cbv zeta.
    rewrite getNorm_mulRe, getNorm_versor, Rabs_pos_eq.
    + ring.
    + apply Rmult_le_pos; [exact Hl | apply getNorm_nonneg].
  - intros HD. unfold ornament. cbv zeta.
    pose proof (proj1 (Complex_neq_normSq D) HD) as Hn. unfold normSq in Hn.
    destruct (Math_atan2_polar _ _ Hn) as [Hc Hs].
    change (sqrt (x D * x D + y D * y D)) with (getNorm D) in Hc, Hs.
    replace (Math_atan2 (y D) (x D)
             + 0 * (Math_atan2 (y refDir) (x refDir) - Math_atan2 (y D) (x D)))
      with (Math_atan2 (y D) (x D)) by ring.
    apply Complex_eq; cbn [mulRe versor x y].
    + rewrite <- Hc at 2. ring.
    + rewrite <- Hs at 2. ring.
Qed.

Lemma ornament_norm_witness :
  getNorm (ornament (mkComplex 3 4) (mkComplex 0 1) (6 / 10) (6 / 10))
  = 6 / 10 * getNorm (mkComplex 3 4) /\
  (mkComplex 3 4 <> CMP_ZERO ->
   ornament (mkComplex 3 4) (mkComplex 0 1) (6 / 10) 0
   = mulRe (mkComplex 3 4) (6 / 10)).
Proof.
  apply (ornament_norm (mkComplex 3 4) (mkComplex 0 1) (6 / 10) (6 / 10)). lra.
Defined.

(** ** Reflections through a Moebius map *)

Lemma flipY_involutive (z : Complex) : flipY (flipY z) = z.
Proof. apply Complex_eq; cbn [flipY x y]; ring. Qed.

(** Property X17: the reflection the generator performs through an
    edge map (forward, negate the imaginary part, back) is an involution
    wherever the two evaluations are defined, and it fixes the points the
    map sends to the real axis. *)
Theorem reflectVia_involution (P Q R z : Complex) :
  P <> Q -> Q <> R -> P <> R ->
  let M := MobiusMap3PointsTo_m101 P Q R in
  add (MMap.d M) (mul (MMap.c M) z) <> CMP_ZERO ->
  sub (MMap.a M) (mul (MMap.c M) (flipY (applyMobiusTrans M z false)))
    <> CMP_ZERO ->
  reflectVia M (reflectVia M z) = z /\
  (y (applyMobiusTrans M z false) = 0 -> reflectVia M z = z).
Proof.
  intros HPQ HQR HPR M Hfwd Hinv.
  pose proof (mobius_determinant P Q R HPQ HQR HPR) as Hdet.
  fold M in Hdet. cbv zeta in Hdet. fold (mobius_det M) in Hdet.
  split.
  - unfold reflectVia.
    rewrite (forward_after_inverted M _ Hdet Hinv), flipY_involutive.
    apply inverted_after_forward; assumption.
  - intros Hy. unfold reflectVia.
    replace (flipY (applyMobiusTrans M z false)) with (applyMobiusTrans M z false).
    + apply inverted_after_forward; assumption.
    + apply Complex_eq; cbn [flipY x y]; [reflexivity | rewrite Hy; ring].
Qed.

Lemma mobius_inverted_defined_at_zero (P Q R : Complex) :
  P <> Q -> Q <> R -> P <> R ->
  let M := MobiusMap3PointsTo_m101 P Q R in
  sub (MMap.a M) (mul (MMap.c M) (mkComplex 0 0)) <> CMP_ZERO.
Proof.
  intros HPQ HQR HPR.
  pose proof (mobius_radicand_neq_zero P Q R HPQ HQR HPR) as Hw.
  pose proof (first_root_neq_zero _ Hw) as Hd.
  pose proof (sub_neq_zero _ _ HPR) as nPR.
  unfold MobiusMap3PointsTo_m101. fold (mobius_radicand P Q R).
  set (denom := first_root (root (mobius_radicand P Q R) 2)) in *.
  cbv zeta. cbn [MMap.a MMap.c].
  assert (E : sub (div (sub P R) denom)
                  (mul (div (add (sub Q P) (sub Q R)) denom) (mkComplex 0 0))
              = mul (sub P R) (reciprocal denom)).
  { fold CMP_ZERO. field. exact Hd. }
  rewrite E. apply mul_neq_zero; [exact nPR|].
  intros E0.
  assert (H1 : mul (reciprocal denom) denom = CMP_ONE) by (field; exact Hd).
  rewrite E0 in H1. injection H1 as H1. lra.
Qed.

Lemma mobius_forward_at_Q (P Q R : Complex) :
  P <> Q -> Q <> R -> P <> R ->
  applyMobiusTrans (MobiusMap3PointsTo_m101 P Q R) Q false = mkComplex 0 0.
Proof.
  intros HPQ HQR HPR.
  pose proof (mobius_radicand_neq_zero P Q R HPQ HQR HPR) as Hw.
  pose proof (first_root_neq_zero _ Hw) as Hd.
  unfold MobiusMap3PointsTo_m101, applyMobiusTrans.
  fold (mobius_radicand P Q R).
  set (denom := first_root (root (mobius_radicand P Q R) 2)) in *.
  cbv zeta. cbn [MMap.a MMap.b MMap.c MMap.d].
  rewrite !mulRe_mul, minus_one_as_opp.
  assert (E : add (mul (div (sub P R) denom) Q)
                  (div (mul (mul Q (Copp CMP_ONE)) (sub P R)) denom)
              = CMP_ZERO) by (field; exact Hd).
  rewrite E. apply Complex_eq; cbn [div mul CMP_ZERO x y]; ring.
Qed.

Lemma reflectVia_involution_witness :
  let M := MobiusMap3PointsTo_m101 (mkComplex 0 1) (mkComplex 2 0) (mkComplex 1 1) in
  reflectVia M (reflectVia M (mkComplex 2 0)) = mkComplex 2 0 /\
  (y (applyMobiusTrans M (mkComplex 2 0) false) = 0 ->
   reflectVia M (mkComplex 2 0) = mkComplex 2 0).
Proof.
  assert (H1 : mkComplex 0 1 <> mkComplex 2 0) by (apply Complex_neq; lra).
  assert (H2 : mkComplex 2 0 <> mkComplex 1 1) by (apply Complex_neq; lra).
  assert (H3 : mkComplex 0 1 <> mkComplex 1 1) by (apply Complex_neq; lra).
  apply (reflectVia_involution (mkComplex 0 1) (mkComplex 2 0) (mkComplex 1 1)
           (mkComplex 2 0) H1 H2 H3).
  - apply (mobius_forward_defined_at_Q _ _ _ H1 H2 H3).
  - rewrite (mobius_forward_at_Q _ _ _ H1 H2 H3).
    replace (flipY (mkComplex 0 0)) with (mkComplex 0 0)
      by (apply Complex_eq; cbn [flipY x y]; ring).
    apply (mobius_inverted_defined_at_zero _ _ _ H1 H2 H3).
Defined.

(** ** The geometry of the fundamental triangle *)

Section FundamentalTriangleGeometry.

(** [c], [s]: the components of [refDir]; [r]: [rSide]. *)
Variables c s r : R.
Hypothesis Hc : 1 / 2 <= c <= 1.
Hypothesis Hs : 0 < s.
Hypothesis Hunit : s * s + c * c = 1.
Hypothesis Hr : 0 < r < 1.

Let cenX : R := (1 / 2) * (r * r + 1) / (r * c).
Let invRad : R := Math_sqrt (cenX * cenX + (-2 * c * cenX + r) * r).

Lemma vertex_V1_on_circle :
  onCircle (mkComplex cenX 0) invRad (mkComplex (cenX - invRad) 0).
Proof. unfold onCircle, normSq; cbn [sub x y]. ring. Qed.

Lemma vertex_V2_geometry :
  exists V2,
    intersectCircleWithOriginLine (mkComplex cenX 0) invRad (mkComplex c s)
    = Some V2 /\
    onCircle (mkComplex cenX 0) invRad V2 /\
    onOriginLine (mkComplex c s) V2 /\
    getNorm V2 = r.
Proof.
  destruct (inversion_circle_center c s r Hc Hs Hunit Hr) as [H0 H1].
  destruct (inversion_circle_radius_bounds c s r Hc Hs Hunit Hr) as [[H2 H3] H4].
  fold cenX in H0, H1, H2, H3, H4. fold invRad in H2, H3, H4.
  destruct (vertex_V2 c s r Hc Hs Hunit Hr) as (V2 & HV & Hn & Hline).
  fold cenX in HV. fold invRad in HV.
  pose proof EPS_small as He.
  assert (Hny : EPS < Math_abs (- x (mkComplex c s))).
  { cbn [x]. unfold Math_abs. rewrite Rabs_left by lra. lra. }
  assert (Hdisc : 0 <= originLineDisc (mkComplex cenX 0) invRad (mkComplex c s)).
  { unfold originLineDisc; cbn [x y]. cbv zeta.
    set (slope := - s / - c).
    assert (Hslope : slope * c = s) by (unfold slope; field; lra).
    assert (HA : (1 + slope * slope) * (c * c) = 1) by nra.
    replace (-2 * (cenX + slope * 0) * (-2 * (cenX + slope * 0))
             - 4 * (1 + slope * slope) * (cenX * cenX + 0 * 0 - invRad * invRad))
      with (4 * (cenX * cenX - (1 + slope * slope))) by (rewrite H4; ring).
    assert ((1 + slope * slope) * (c * c) < cenX * cenX * (c * c)) by nra.
    assert (1 + slope * slope < cenX * cenX) by nra. lra. }
  destruct (originLine_intersection _ _ _ Hny Hdisc) as (V & HV' & _ & Hcirc & _).
  rewrite HV in HV'. injection HV' as <-.
  exists V2. split; [exact HV|]. split; [exact Hcirc|]. split; [exact Hline|].
  (* V2 = t * (c, s) with (r*t - 1) * (t - r) = 0 and t*t < 1 *)
  unfold onOriginLine in Hline; cbn [x y] in Hline.
  unfold onCircle, normSq in Hcirc; cbn [sub x y] in Hcirc.
  set (t := c * x V2 + s * y V2).
  assert (Hx : x V2 = c * t).
  { unfold t.
    transitivity ((s * s + c * c) * x V2 - s * (s * x V2 + - c * y V2));
      [rewrite Hunit, Hline; ring | ring]. }
  assert (Hy : y V2 = s * t).
  { unfold t.
    transitivity ((s * s + c * c) * y V2 + c * (s * x V2 + - c * y V2));
      [rewrite Hunit, Hline; ring | ring]. }
  assert (Hnsq : normSq V2 = t * t).
  { unfold normSq. rewrite Hx, Hy.
    transitivity ((s * s + c * c) * (t * t)); [ring | rewrite Hunit; ring]. }
  assert (Hm : 2 * (cenX * c) * r = r * r + 1) by (unfold cenX; field; lra).
  assert (Hquad : t * t - 2 * (cenX * c) * t + 1 = 0).
  { rewrite Hx, Hy, H4 in Hcirc. nra. }
  assert (Hfac : (r * t - 1) * (t - r) = 0).
  { transitivity (r * (t * t - 2 * (cenX * c) * t + 1)
                  + (2 * (cenX * c) * r - (r * r + 1)) * t); [ring|].
    rewrite Hquad, Hm. ring. }
  assert (Hlt : t * t < 1).
  { rewrite <- Hnsq, <- getNorm_sq. nra. }
  assert (Ht : t = r).
  { destruct (Rmult_integral _ _ Hfac) as [E|E]; [|lra].
    exfalso. assert (r * t = 1) by lra. nra. }
  unfold getNorm, Math_sqrt. rewrite Hnsq, Ht. apply sqrt_square. lra.
Qed.

End FundamentalTriangleGeometry.

(** Property X18: for a hyperbolic Schlafli symbol the inversion
    circle is orthogonal to the unit circle ([cenX > 1] and
    [invRad^2 = cenX^2 - 1]); [V1] lies on the positive real axis and on
    the inversion circle; [V2] lies on the inversion circle and on the line
    through the origin in direction [refDir], at distance [rSide] from the
    origin. *)
Theorem fundamental_triangle_geometry (p q : Z) :
  (3 <= p)%Z -> (3 <= q)%Z -> ((p - 2) * (q - 2) > 4)%Z ->
  1 < gen_cenX p q /\
  gen_invRad p q * gen_invRad p q = gen_cenX p q * gen_cenX p q - 1 /\
  gen_V1 p q = mkComplex (gen_cenX p q - gen_invRad p q) 0 /\
  0 < gen_cenX p q - gen_invRad p q /\
  onCircle (gen_invCen p q) (gen_invRad p q) (gen_V1 p q) /\
  exists v2,
    gen_V2 p q = Some v2 /\
    onCircle (gen_invCen p q) (gen_invRad p q) v2 /\
    onOriginLine (gen_refDir p) v2 /\
    getNorm v2 = gen_rSide p q.
Proof.
  intros Hp Hq Hpq.
  destruct (valid_trigonometry p q Hp Hq Hpq) as (Hc & Hs & _).
  pose proof (gen_rSide_bounds p q Hp Hq Hpq) as Hr.
  assert (Hunit : sin (PI / IZR p) * sin (PI / IZR p)
                  + cos (PI / IZR p) * cos (PI / IZR p) = 1).
  { pose proof (sin2_cos2 (PI / IZR p)) as H. unfold Rsqr in H. exact H. }
  destruct (inversion_circle_center _ _ _ Hc Hs Hunit Hr) as [_ H1].
  destruct (inversion_circle_radius_bounds _ _ _ Hc Hs Hunit Hr) as [[H2 H3] H4].
  pose proof (vertex_V1 _ _ _ Hc Hs Hunit Hr) as HV1. cbv zeta in HV1.
  destruct HV1 as [HV1 _].
  pose proof (vertex_V1_on_circle (cos (PI / IZR p)) (gen_rSide p q)) as HV1c.
  destruct (vertex_V2_geometry _ _ _ Hc Hs Hunit Hr) as (v2 & Hv & Hvc & Hvl & Hvn).
  unfold gen_V1, gen_V2, gen_invCen, gen_invRad, gen_cenX, gen_V0, gen_refDir, versor.
  cbn [x y]. cbv zeta.
  split; [exact H1|]. split; [exact H4|]. split; [exact HV1|].
  split; [lra|]. split; [rewrite HV1; exact HV1c|].
  exists v2. repeat split; assumption.
Qed.

Lemma fundamental_triangle_geometry_witness :
  1 < gen_cenX 4 5 /\
  gen_invRad 4 5 * gen_invRad 4 5 = gen_cenX 4 5 * gen_cenX 4 5 - 1 /\
  gen_V1 4 5 = mkComplex (gen_cenX 4 5 - gen_invRad 4 5) 0 /\
  0 < gen_cenX 4 5 - gen_invRad 4 5 /\
  onCircle (gen_invCen 4 5) (gen_invRad 4 5) (gen_V1 4 5) /\
  exists v2,
    gen_V2 4 5 = Some v2 /\
    onCircle (gen_invCen 4 5) (gen_invRad 4 5) v2 /\
    onOriginLine (gen_refDir 4) v2 /\
    getNorm v2 = gen_rSide 4 5.
Proof. apply (fundamental_triangle_geometry 4 5); lia. Defined.



(** ** The counters of the reduction loop *)

Module ShaderCounters.
Import Shader.

Section Uniforms.
Variables (invCen refNrm : vec2) (invRad : R).

(** What one pass does to the counters. *)
Lemma reducePass_counters (st : ReduceState) :
  let st' := fst (reducePass invCen refNrm invRad st) in
  let fund := snd (reducePass invCen refNrm invRad st) in
  (0 <= rs_col0 st' - rs_col0 st <= 1)%Z /\
  (0 <= rs_col1 st' - rs_col1 st <= 1)%Z /\
  (0 <= rs_col2 st' - rs_col2 st <= 1)%Z /\
  (rs_n st' - rs_n st
   = (rs_col0 st' - rs_col0 st) + (rs_col1 st' - rs_col1 st)
     + (rs_col2 st' - rs_col2 st))%Z /\
  (rs_a st' - rs_a st = rs_col0 st' - rs_col0 st)%Z /\
  (rs_pol_col st' - rs_pol_col st
   = (rs_col0 st' - rs_col0 st) + (rs_col2 st' - rs_col2 st))%Z /\
  (fund = false -> rs_n st + 1 <= rs_n st')%Z.
Proof.
  unfold reducePass. cbv zeta.
  destruct (Rltb (Shader.normSq (vsub (rs_z st) invCen)) (invRadSq invRad));
    lazy iota;
    destruct (Rltb (dot _ refNrm) 0); lazy iota;
    destruct (Rltb (y _) 0); lazy iota; cbn [fst snd rs_n rs_a rs_col0 rs_col1 rs_col2 rs_pol_col];
    repeat split; try lia; intros; discriminate.
Qed.

Lemma reduceLoop_counters (k : nat) (st : ReduceState) :
  let st' := fst (reduceLoop invCen refNrm invRad k st) in
  let brk := snd (reduceLoop invCen refNrm invRad k st) in
  (rs_col0 st <= rs_col0 st')%Z /\
  (rs_col1 st <= rs_col1 st')%Z /\
  (rs_col2 st <= rs_col2 st')%Z /\
  (rs_n st' - rs_n st
   = (rs_col0 st' - rs_col0 st) + (rs_col1 st' - rs_col1 st)
     + (rs_col2 st' - rs_col2 st))%Z /\
  (rs_a st' - rs_a st = rs_col0 st' - rs_col0 st)%Z /\
  (rs_pol_col st' - rs_pol_col st
   = (rs_col0 st' - rs_col0 st) + (rs_col2 st' - rs_col2 st))%Z /\
  (rs_n st' <= rs_n st + 3 * Z.of_nat k)%Z /\
  (brk = false -> rs_n st + Z.of_nat k <= rs_n st')%Z.
Proof.
  revert st. induction k as [|k IH]; intros st.
  - cbn [reduceLoop fst snd]. repeat split; lia.
  - cbn [reduceLoop].
    pose proof (reducePass_counters st) as HP. cbv zeta in HP.
    destruct (reducePass invCen refNrm invRad st) as [s1 fund].
    cbn [fst snd] in HP. destruct HP as (P0 & P1 & P2 & Pn & Pa & Pp & Pf).
    destruct fund.
    + cbn [fst snd]. repeat split; try lia; intros; discriminate.
    + specialize (IH s1). cbv zeta in IH.
      destruct (reduceLoop invCen refNrm invRad k s1) as [s2 brk].
      cbn [fst snd] in *. destruct IH as (I0 & I1 & I2 & In & Ia & Ip & Ib & Ik).
      specialize (Pf eq_refl).
      repeat split; try lia. intros Hb. specialize (Ik Hb). lia.
Qed.

End Uniforms.

(** Property X20: whatever the uniforms, the start point and the
    iteration bound, when the loop of [tilingSample] ends the counters
    satisfy [n = col0 + col1 + col2], [a = col0] and
    [pol_col = col0 + col2]; no counter is negative and [n] is at most three
    times the number of iterations. *)
Theorem tilingReduce_counters
  (invCen refNrm : vec2) (invRad : R) (nIterations : Z) (z : vec2) :
  let st := fst (tilingReduce invCen refNrm invRad nIterations z) in
  (rs_n st = rs_col0 st + rs_col1 st + rs_col2 st)%Z /\
  (rs_a st = rs_col0 st)%Z /\
  (rs_pol_col st = rs_col0 st + rs_col2 st)%Z /\
  (0 <= rs_col0 st)%Z /\ (0 <= rs_col1 st)%Z /\ (0 <= rs_col2 st)%Z /\
  (rs_n st <= 3 * Z.max 0 nIterations)%Z.
Proof.
  unfold tilingReduce.
  pose proof (reduceLoop_counters invCen refNrm invRad
                (Z.to_nat nIterations) (initialState z)) as H.
  cbv zeta in H. cbv zeta.
  destruct (reduceLoop invCen refNrm invRad (Z.to_nat nIterations) (initialState z))
    as [st brk].
  cbn [fst snd initialState rs_n rs_a rs_col0 rs_col1 rs_col2 rs_pol_col] in *.
  destruct H as (I0 & I1 & I2 & In & Ia & Ip & Ib & _).
  repeat split; lia.
Qed.

(** Property X21: when the loop uses up its iteration bound without
    reaching [break], every one of the [nIterations] passes has applied at
    least one inversion or reflection: [n >= nIterations]. *)
Theorem tilingReduce_budget_exhausted
  (invCen refNrm : vec2) (invRad : R) (nIterations : Z) (z : vec2) :
  snd (tilingReduce invCen refNrm invRad nIterations z) = false ->
  (nIterations <= rs_n (fst (tilingReduce invCen refNrm invRad nIterations z)))%Z.
Proof.
  unfold tilingReduce. intros Hb.
  pose proof (reduceLoop_counters invCen refNrm invRad
                (Z.to_nat nIterations) (initialState z)) as H.
  cbv zeta in H.
  destruct (reduceLoop invCen refNrm invRad (Z.to_nat nIterations) (initialState z))
    as [st brk].
  cbn [fst snd initialState rs_n rs_a rs_col0 rs_col1 rs_col2 rs_pol_col] in *.
  destruct H as (_ & _ & _ & _ & _ & _ & _ & Ik). specialize (Ik Hb). lia.
Qed.

Lemma tilingReduce_budget_exhausted_witness :
  (1 <= rs_n (fst (tilingReduce (mkComplex 2 0) (mkComplex 0 1) 1 1
                     (mkComplex 0 (- (1 / 2))))))%Z.
Proof.
  apply (tilingReduce_budget_exhausted (mkComplex 2 0) (mkComplex 0 1) 1 1
           (mkComplex 0 (- (1 / 2)))).
  unfold tilingReduce. replace (Z.to_nat 1) with 1%nat by reflexivity.
  cbn [reduceLoop]. unfold reducePass. cbv zeta.
  cbn [initialState rs_z rs_n rs_a rs_col0 rs_col1 rs_col2 rs_pol_col].
  rewrite (Rltb_false (Shader.normSq (vsub (mkComplex 0 (- (1 / 2))) (mkComplex 2 0)))
             (invRadSq 1))
    by (unfold Shader.normSq, dot, vsub, invRadSq; simpl; lra).
  rewrite (Rltb_true (dot (mkComplex 0 (- (1 / 2))) (mkComplex 0 1)) 0)
    by (unfold dot; simpl; lra).
  destruct (Rltb _ 0); reflexivity.
Defined.

End ShaderCounters.

(** ** The reduction loop and the unit disk *)

Module ShaderDisk.
Import Shader.

Section Uniforms.
Variables (invCen refNrm : vec2) (invRad : R).

(** The reflection normal is a unit vector and the inversion circle is
    orthogonal to the unit circle, as the generator provides them. *)
Hypothesis Hnrm : dot refNrm refNrm = 1.
Hypothesis Horth : Shader.normSq invCen = 1 + invRad * invRad.

Lemma inversion_keeps_disk (z : vec2) :
  Shader.normSq z <= 1 ->
  Shader.normSq (vsub z invCen) < invRadSq invRad ->
  Shader.normSq
    (vadd invCen (vdiv (vscale (invRadSq invRad) (vsub z invCen))
                       (Shader.normSq (vsub z invCen)))) <= 1.
Proof.
  unfold Shader.normSq, dot, invRadSq in *. cbn [vadd vdiv vscale vsub x y].
  intros Hz Hin.
  set (D := (x z - x invCen) * (x z - x invCen)
            + (y z - y invCen) * (y z - y invCen)) in *.
  assert (HD0 : 0 <= D).
  { pose proof (Rle_0_sqr (x z - x invCen)) as Q1.
    pose proof (Rle_0_sqr (y z - y invCen)) as Q2.
    unfold Rsqr in Q1, Q2. unfold D. lra. }
  assert (HD : 0 < D).
  { destruct (Req_dec_T D 0) as [E|E]; [|lra]. exfalso.
    unfold D in E. destruct (Rplus_sqr_eq_0 _ _ E) as [Ex Ey].
    assert (Hx : x z = x invCen) by lra. assert (Hy : y z = y invCen) by lra.
    rewrite Hx, Hy in Hz. lra. }
  assert (E : (x invCen + invRad * invRad * (x z - x invCen) / D)
              * (x invCen + invRad * invRad * (x z - x invCen) / D)
              + (y invCen + invRad * invRad * (y z - y invCen) / D)
                * (y invCen + invRad * invRad * (y z - y invCen) / D)
              = 1 + invRad * invRad / D * (x z * x z + y z * y z - 1)).
  { transitivity
      ((x invCen * x invCen + y invCen * y invCen)
       + invRad * invRad / D
         * ((x z * x z + y z * y z)
            - (x invCen * x invCen + y invCen * y invCen) - D)
       + invRad * invRad * (invRad * invRad) * D / (D * D)).
    - unfold D. field. fold D. lra.
    - rewrite Horth. field. lra. }
  rewrite E.
  assert (0 <= invRad * invRad / D).
  { apply Rmult_le_pos; [nra | left; apply Rinv_0_lt_compat; exact HD]. }
  nra.
Qed.

Lemma reflection_keeps_norm (z : vec2) :
  Shader.normSq (vsub z (vscale (2 * dot z refNrm) refNrm)) = Shader.normSq z.
Proof.
  unfold Shader.normSq, dot in *. cbn [vsub vscale x y].
  transitivity (x z * x z + y z * y z
                + 4 * (x z * x refNrm + y z * y refNrm)
                    * (x z * x refNrm + y z * y refNrm)
                    * (x refNrm * x refNrm + y refNrm * y refNrm - 1));
    [ring | rewrite Hnrm; ring].
Qed.

Lemma reducePass_keeps_disk (st : ReduceState) :
  Shader.normSq (rs_z st) <= 1 ->
  Shader.normSq (rs_z (fst (reducePass invCen refNrm invRad st))) <= 1 /\
  0 <= y (rs_z (fst (reducePass invCen refNrm invRad st))).
Proof.
  intros Hz. unfold reducePass. cbv zeta.
  set (z1 := if Rltb (Shader.normSq (vsub (rs_z st) invCen)) (invRadSq invRad)
             then vadd invCen
                    (vdiv (vscale (invRadSq invRad) (vsub (rs_z st) invCen))
                          (Shader.normSq (vsub (rs_z st) invCen)))
             else rs_z st).
  assert (H1 : Shader.normSq z1 <= 1).
  { unfold z1.
    destruct (Rltb (Shader.normSq (vsub (rs_z st) invCen)) (invRadSq invRad)) eqn:E.
    - apply Rltb_spec in E. apply inversion_keeps_disk; assumption.
    - exact Hz. }
  set (z2 := if Rltb (dot z1 refNrm) 0
             then vsub z1 (vscale (2 * dot z1 refNrm) refNrm) else z1).
  assert (H2 : Shader.normSq z2 <= 1).
  { unfold z2. destruct (Rltb (dot z1 refNrm) 0).
    - rewrite reflection_keeps_norm. exact H1.
    - exact H1. }
  cbn [fst rs_z].
  destruct (Rltb (y z2) 0) eqn:E3.
  - apply Rltb_spec in E3. split.
    + unfold Shader.normSq, dot in *. cbn [x y]. nra.
    + cbn [y]. lra.
  - apply Rltb_spec_false in E3. split; assumption.
Qed.

Lemma reduceLoop_keeps_disk (k : nat) (st : ReduceState) :
  Shader.normSq (rs_z st) <= 1 ->
  Shader.normSq (rs_z (fst (reduceLoop invCen refNrm invRad k st))) <= 1 /\
  (0 <= y (rs_z st) \/ (0 < k)%nat ->
   0 <= y (rs_z (fst (reduceLoop invCen refNrm invRad k st)))).
Proof.
  revert st. induction k as [|k IH]; intros st Hz.
  - cbn [reduceLoop fst]. split; [exact Hz|]. intros [H|H]; [exact H | lia].
  - cbn [reduceLoop].
    destruct (reducePass_keeps_disk st Hz) as [H1 H2].
    destruct (reducePass invCen refNrm invRad st) as [s1 fund].
    cbn [fst] in H1, H2. destruct fund.
    + cbn [fst]. split; [exact H1 | intros _; exact H2].
    + destruct (IH s1 H1) as [I1 I2]. split; [exact I1|].
      intros _. apply I2. left. exact H2.
Qed.

End Uniforms.

(** Property X22: with a unit reflection normal and an inversion
    circle orthogonal to the unit circle, the loop never moves a point of
    the closed unit disk out of it; and as soon as one pass has run, the
    point it leaves has [z.y >= 0], whether the loop ended by [break] or by
    its iteration bound. *)
Theorem tilingReduce_stays_in_disk
  (invCen refNrm : vec2) (invRad : R) (nIterations : Z) (z : vec2) :
  dot refNrm refNrm = 1 ->
  Shader.normSq invCen = 1 + invRad * invRad ->
  Shader.normSq z <= 1 ->
  Shader.normSq (rs_z (fst (tilingReduce invCen refNrm invRad nIterations z))) <= 1 /\
  ((1 <= nIterations)%Z ->
   0 <= y (rs_z (fst (tilingReduce invCen refNrm invRad nIterations z)))).
Proof.
  intros Hn Ho Hz. unfold tilingReduce.
  destruct (reduceLoop_keeps_disk invCen refNrm invRad Hn Ho
              (Z.to_nat nIterations) (initialState z) Hz) as [H1 H2].
  split; [exact H1|]. intros Hk. apply H2. right. lia.
Qed.

Lemma tilingReduce_stays_in_disk_witness :
  Shader.normSq
    (rs_z (fst (tilingReduce (mkComplex (5 / 4) 0) (mkComplex 0 1) (3 / 4) 50
                  (mkComplex (1 / 2) (- (1 / 2)))))) <= 1 /\
  ((1 <= 50)%Z ->
   0 <= y (rs_z (fst (tilingReduce (mkComplex (5 / 4) 0) (mkComplex 0 1) (3 / 4) 50
                        (mkComplex (1 / 2) (- (1 / 2))))))).
Proof.
  apply (tilingReduce_stays_in_disk (mkComplex (5 / 4) 0) (mkComplex 0 1) (3 / 4)
           50 (mkComplex (1 / 2) (- (1 / 2))));
    unfold Shader.normSq, dot; simpl; lra.
Defined.

End ShaderDisk.

(** ** More on the projections *)

Lemma Math_tanh_bounds (t : R) : 0 < t -> 0 < Math_tanh t < 1.
Proof.
  intros Ht. unfold Math_tanh, Rtrigo_def.tanh, sinh, cosh.
  pose proof (exp_pos t) as H1. pose proof (exp_pos (- t)) as H2.
  assert (H3 : Rtrigo_def.exp (- t) < Rtrigo_def.exp t)
    by (apply exp_increasing; lra).
  replace ((Rtrigo_def.exp t - Rtrigo_def.exp (- t)) / 2
           / ((Rtrigo_def.exp t + Rtrigo_def.exp (- t)) / 2))
    with ((Rtrigo_def.exp t - Rtrigo_def.exp (- t))
          / (Rtrigo_def.exp t + Rtrigo_def.exp (- t))) by (field; lra).
  split.
  - apply Rdiv_lt_0_compat; lra.
  - apply Rmult_lt_reg_r with (r := Rtrigo_def.exp t + Rtrigo_def.exp (- t)); [lra|].
    unfold Rdiv. rewrite Rmult_assoc, Rinv_l by lra. lra.
Qed.

(** Property X23: away from the origin the azimuthal entry (index 5)
    of [modelMaps] sends every point strictly inside the unit disk, and the
    inverted-disk entry (index 3) sends [z] to a point of squared norm
    [1 / (9 |z|^2)], inside the disk exactly when [|z| > 1/3]. *)
Theorem modelMaps_azimuthal_inverted (z : Complex) :
  z <> CMP_ZERO ->
  exists inverted azimuthal,
    nth_error modelMaps 3 = Some inverted /\
    nth_error modelMaps 5 = Some azimuthal /\
    normSq (inverted z) = 1 / (9 * normSq z) /\
    (normSq (inverted z) < 1 <-> 1 / 9 < normSq z) /\
    0 < getNorm (azimuthal z) < 1.
Proof.
  intros Hz. eexists. eexists. split; [reflexivity|]. split; [reflexivity|].
  cbv beta zeta.
  pose proof (proj1 (Complex_neq_normSq z) Hz) as Hn.
  pose proof (normSq_nonneg z) as Hn0.
  assert (E : normSq (reciprocal (mulRe z mapScale)) = 1 / (9 * normSq z)).
  { unfold reciprocal. rewrite normSq_divRe.
    - replace (normSq (conj (mulRe z mapScale))) with (normSq (mulRe z mapScale))
        by (unfold normSq; cbn [conj x y]; ring).
      rewrite normSq_mulRe. unfold mapScale. field. exact Hn.
    - rewrite normSq_mulRe. unfold mapScale. nra. }
  split; [exact E|]. split.
  - rewrite E. split; intros H.
    + unfold Rdiv in H.
      apply Rmult_lt_compat_r with (r := 9 * normSq z) in H; [|lra].
      rewrite Rmult_assoc, Rinv_l in H by lra. lra.
    + apply Rmult_lt_reg_r with (r := 9 * normSq z); [lra|].
      unfold Rdiv. rewrite Rmult_assoc, Rinv_l by lra. lra.
  - assert (Hw : mulRe z mapScale <> CMP_ZERO).
    { apply Complex_neq_normSq. rewrite normSq_mulRe. unfold mapScale. nra. }
    pose proof (getNorm_pos _ Hw) as Hpos.
    pose proof (getNormalized_norm _ Hw) as Hu.
    assert (Ht : 0 < getNorm (mulRe z mapScale) * (1 / 2)) by lra.
    destruct (Math_tanh_bounds _ Ht) as [T0 T1].
    rewrite getNorm_mulRe, Hu, Rabs_pos_eq by lra. lra.
Qed.

Lemma modelMaps_azimuthal_inverted_witness :
  exists inverted azimuthal,
    nth_error modelMaps 3 = Some inverted /\
    nth_error modelMaps 5 = Some azimuthal /\
    normSq (inverted (mkComplex 1 0)) = 1 / (9 * normSq (mkComplex 1 0)) /\
    (normSq (inverted (mkComplex 1 0)) < 1 <-> 1 / 9 < normSq (mkComplex 1 0)) /\
    0 < getNorm (azimuthal (mkComplex 1 0)) < 1.
Proof.
  apply (modelMaps_azimuthal_inverted (mkComplex 1 0)). apply Complex_neq. lra.
Defined.

(** Property X24: the complex hyperbolic tangent, which is the band
    entry (index 7) of [modelMaps], sends every point with
    [cos(2y) > 0] (the band [|y| < pi/4]) strictly inside the unit disk. *)
Theorem tanh_band_in_disk (z : Complex) :
  0 < cos (y z * 2) ->
  nth_error modelMaps 7 = Some (fun z => Complex.tanh z) /\
  normSq (Complex.tanh z) < 1.
Proof.
  intros Hcos. split; [reflexivity|].
  unfold Complex.tanh. cbv zeta.
  set (E := Complex.exp (mulRe z 2)).
  assert (Hre : 0 < x E).
  { unfold E, Complex.exp; cbn [mulRe versor x y].
    apply Rmult_lt_0_compat; [exact Hcos | apply exp_pos]. }
  assert (Hden : add E CMP_ONE <> CMP_ZERO).
  { intros H0. pose proof (f_equal x H0) as Hx. cbn [add CMP_ONE CMP_ZERO x] in Hx.
    lra. }
  rewrite normSq_div by exact Hden.
  pose proof (proj1 (Complex_neq_normSq _) Hden) as Hn.
  pose proof (normSq_nonneg (add E CMP_ONE)) as Hn0.
  assert (Hdiff : normSq (add E CMP_ONE) - normSq (sub E CMP_ONE) = 4 * x E)
    by (unfold normSq; cbn [add sub CMP_ONE x y]; ring).
  apply Rmult_lt_reg_r with (r := normSq (add E CMP_ONE)); [lra|].
  unfold Rdiv. rewrite Rmult_assoc, Rinv_l by lra. lra.
Qed.

Lemma tanh_band_in_disk_witness :
  nth_error modelMaps 7 = Some (fun z => Complex.tanh z) /\
  normSq (Complex.tanh (mkComplex 1 0)) < 1.
Proof.
  apply (tanh_band_in_disk (mkComplex 1 0)).
  cbn [y]. rewrite Rmult_0_l, cos_0. lra.
Defined.
